(** * sudoku.py: extraction engine, corpus store, picker, crop geometry
    and reveal

    A shallow embedding of [scripts/sudoku.py] and the properties its
    specification states about it.

    Python strings are modelled as lists of 8-bit characters (the UTF-8
    bytes of the text).  [str.lower] acts on the ASCII letters only; no
    character outside ASCII lowers to a hexadecimal digit, a hyphen, an
    underscore or a letter of [.json], so every comparison the program makes
    against such text is unaffected.  [str.strip] removes the white space
    of Unicode, in its UTF-8 form.  Python integers are [Z]; list indices and lengths are [nat]. *)

From Stdlib Require Import Ascii String ZArith DecimalString DecimalPos
  DecimalZ.
From stdpp Require Import base decidable option list sorting strings gmap.

Local Open Scope list_scope.

(** ** Python strings *)

Abbreviation pystr := (list ascii).

Definition lit (s : string) : pystr := list_ascii_of_string s.

(** The double-quote character. *)
Definition dquote : ascii := "034"%char.

Definition chr_eq (a b : ascii) : bool := Ascii.eqb a b.

(** [s.startswith(p)] *)
Fixpoint startswith (p s : pystr) : bool :=
  match p, s with
  | [], _ => true
  | _ :: _, [] => false
  | a :: p', b :: s' => chr_eq a b && startswith p' s'
  end.

(** [s.find(sub)]: the lowest index at which [sub] occurs, counted from
    [i] for the text that remains; [None] is Python's [-1]. *)
Fixpoint find_from (sub s : pystr) (i : nat) : option nat :=
  if startswith sub s then Some i
  else match s with
       | [] => None
       | _ :: s' => find_from sub s' (S i)
       end.

Definition find (sub s : pystr) : option nat := find_from sub s 0.

(** [s[a:b]] for [a <= b] *)
Definition slice (s : pystr) (a b : nat) : pystr := take (b - a) (drop a s).

(** ** Errors

    The program signals failure by raising; each raise site is a
    constructor, named after the failure class of the specification. *)

Inductive error : Type :=
  | MarkerNotFound (var_name : pystr)
      (* ValueError: Could not find <var_name> in HTML *)
  | MalformedArray (var_name : pystr)
      (* ValueError: Could not parse <var_name> array from HTML *)
  | NoPuzzlesFound
      (* ValueError: No puzzles found *)
  | EmptyIdentifier
      (* ValueError: Puzzle id cannot be empty *)
  | InvalidIdentifier
      (* ValueError: Puzzle id may only contain hex characters and '-' *)
  | FragmentNotFound (puzzle_id : pystr)
      (* ValueError: Puzzle id fragment not found *)
  | AmbiguousIdentifier (matches : nat) (ids : list pystr) (extra : nat)
      (* ValueError: Puzzle id fragment is ambiguous (n matches): ids (+k more) *)
  | IndexOutOfRange (index : Z) (have : nat)
      (* ValueError: index out of range *)
  | EmptyCorpus
      (* FileNotFoundError: No puzzles stored yet *)
  | ShortIdNotStored (short_id : pystr)
      (* FileNotFoundError: No stored puzzle JSON found for short id *)
  | IdNotStored (puzzle_id : pystr)
      (* FileNotFoundError: No stored puzzle JSON found for id *)
  | InsufficientUniquePuzzles (obtained attempts requested : nat)
      (* SystemExit: Could only fetch n unique new puzzle(s) ... *)
  | UncaughtException.
      (* an exception no handler of the program catches *)

Inductive result (A : Type) : Type :=
  | Ok (a : A)
  | Err (e : error).
Arguments Ok {A} a.
Arguments Err {A} e.

#[global] Instance result_bind : MBind result := λ A B k r,
  match r with
  | Ok a => k a
  | Err e => Err e
  end.

(** ** Script-array extractor: [_extract_js_array_contents] *)

Module Extractor.

(** The loop variables [depth], [in_string], [string_quote] and [escape];
    the empty [string_quote] of the source is [None]. *)
Record scan_state : Type := ScanState {
  depth : Z;
  in_string : bool;
  string_quote : option ascii;
  escape : bool
}.

Definition init : scan_state :=
  {| depth := 0%Z; in_string := false; string_quote := None; escape := false |}.

Inductive step_result : Type :=
  | Continue (st : scan_state)
  | Return.

Definition is_quote (ch : ascii) : bool :=
  chr_eq ch "'" || chr_eq ch dquote.

Definition quote_matches (ch : ascii) (q : option ascii) : bool :=
  match q with
  | Some c => chr_eq ch c
  | None => false
  end.

(** One iteration of the [for] loop on the character [ch]. *)
Definition scan_step (st : scan_state) (ch : ascii) : step_result :=
  if in_string st then
    if escape st then
      Continue (ScanState (depth st) true (string_quote st) false)
    else if chr_eq ch "\" then
      Continue (ScanState (depth st) true (string_quote st) true)
    else if quote_matches ch (string_quote st) then
      Continue (ScanState (depth st) false (string_quote st) false)
    else Continue st
  else if is_quote ch then
    Continue (ScanState (depth st) true (Some ch) (escape st))
  else if chr_eq ch "[" then
    Continue (ScanState (depth st + 1)%Z false (string_quote st) (escape st))
  else if chr_eq ch "]" then
    let d := (depth st - 1)%Z in
    if (d =? 0)%Z then Return
    else Continue (ScanState d false (string_quote st) (escape st))
  else Continue st.

(** [for i in range(start, len(html))]: [rest] is [html[i:]]; the result
    is the index [i] at which the loop returns, [None] when it runs off
    the end of the text. *)
Fixpoint scan_loop (st : scan_state) (i : nat) (rest : pystr) : option nat :=
  match rest with
  | [] => None
  | ch :: rest' =>
      match scan_step st ch with
      | Return => Some i
      | Continue st' => scan_loop st' (S i) rest'
      end
  end.

Definition marker_of (var_name : pystr) : pystr :=
  lit "const " ++ var_name ++ lit " = [".

Definition _extract_js_array_contents (html var_name : pystr) : result pystr :=
  let marker := marker_of var_name in
  match find marker html with
  | None => Err (MarkerNotFound var_name)
  | Some marker_pos =>
      let start := (marker_pos + length marker - 1) in
      match scan_loop init start (drop start html) with
      | Some i => Ok (slice html (start + 1) i)
      | None => Err (MalformedArray var_name)
      end
  end.

End Extractor.


(** *** The text of an array interior

    What the specification calls the interior of an array literal: plain
    characters, quoted strings (whose characters are opaque, a backslash
    escaping the character after it) and nested bracket groups.  This is the
    reference the scanner is compared with; it is not taken from the code. *)

Module ArrayText.

Inductive strchar : Type :=
  | Plain (c : ascii)
  | Escaped (c : ascii).

Inductive body : Type :=
  | BEnd
  | BChar (c : ascii) (rest : body)
  | BString (q : ascii) (s : list strchar) (rest : body)
  | BGroup (inner rest : body).

Definition render_strchar (x : strchar) : pystr :=
  match x with
  | Plain c => [c]
  | Escaped c => ["\"%char; c]
  end.

Definition render_string (s : list strchar) : pystr :=
  concat (map render_strchar s).

Fixpoint render (b : body) : pystr :=
  match b with
  | BEnd => []
  | BChar c rest => c :: render rest
  | BString q s rest => q :: render_string s ++ q :: render rest
  | BGroup inner rest => "["%char :: render inner ++ "]"%char :: render rest
  end.

(** Inside a string quoted by [q], a plain character is neither the
    backslash nor [q]. *)
Definition strchar_ok (q : ascii) (x : strchar) : bool :=
  match x with
  | Plain c => negb (chr_eq c "\") && negb (chr_eq c q)
  | Escaped _ => true
  end.

Fixpoint well_formed (b : body) : bool :=
  match b with
  | BEnd => true
  | BChar c rest =>
      negb (Extractor.is_quote c) && negb (chr_eq c "[") && negb (chr_eq c "]")
      && well_formed rest
  | BString q s rest =>
      Extractor.is_quote q && forallb (strchar_ok q) s && well_formed rest
  | BGroup inner rest => well_formed inner && well_formed rest
  end.

(** The text that closes the groups [bs], innermost first: each body
    followed by its closing bracket. *)
Definition closing (bs : list body) : pystr :=
  concat (map (λ b, render b ++ ["]"%char]) bs).

(** [sub] occurs in [s] at offset [p]. *)
Definition occurs_at (sub s : pystr) (p : nat) : Prop :=
  ∃ pre post, s = pre ++ sub ++ post ∧ length pre = p.

Definition occurs (sub s : pystr) : Prop := ∃ p, occurs_at sub s p.

Definition first_occurrence (sub s : pystr) (p : nat) : Prop :=
  occurs_at sub s p ∧ ∀ p', occurs_at sub s p' → (p ≤ p')%nat.

End ArrayText.

(** ** Lenient object normalizer: [parse_preloaded_puzzles] *)

Module Normalizer.

(** What [json.loads] does with a text: it returns an object, or raises
    [JSONDecodeError] (a [ValueError]), or raises an exception that is no
    [ValueError], as [RecursionError] on a text nested deeper than the
    interpreter allows. *)
Inductive loaded (value : Type) : Type :=
  | Parsed (obj : value)
  | DecodeError
  | OtherError.
Arguments Parsed {value} obj.
Arguments DecodeError {value}.
Arguments OtherError {value}.

Section normalizer.

(** The JSON library is not part of the program: [json_loads s] is
    [json.loads(s)]; [is_dict obj] is [isinstance(obj, dict)] and
    [has_key obj k] is [k in obj]. *)
Context {value : Type}.
Variable json_loads : pystr → loaded value.
Variable is_dict : value → bool.
Variable has_key : value → pystr → bool.

(** [[^}]+] read greedily: the longest run of characters other than the
    closing brace, and the text that follows it. *)
Fixpoint span_not_close (s : pystr) : pystr * pystr :=
  match s with
  | [] => ([], [])
  | c :: t =>
      if chr_eq c "}" then ([], s)
      else let '(run, rest) := span_not_close t in (c :: run, rest)
  end.

(** The pattern [\{[^}]+\}] matched at the head of [s]: the match and the
    text after it.  The run stops only at a closing brace or at the end of
    the text, so no shorter run lets the final [\}] match either. *)
Definition match_fragment (s : pystr) : option (pystr * pystr) :=
  match s with
  | c :: t =>
      if chr_eq c "{" then
        match span_not_close t with
        | ((_ :: _) as run, c' :: rest) => Some (c :: run ++ [c'], rest)
        | _ => None
        end
      else None
  | [] => None
  end.

(** [re.finditer]: the leftmost match, then on from its end; where nothing
    matches, on from the next character.  Every step drops a character, so
    [length s] steps are enough. *)
Fixpoint finditer_from (fuel : nat) (s : pystr) : list pystr :=
  match fuel with
  | O => []
  | S fuel' =>
      match match_fragment s with
      | Some (m, rest) => m :: finditer_from fuel' rest
      | None =>
          match s with
          | [] => []
          | _ :: t => finditer_from fuel' t
          end
      end
  end.

Definition finditer (s : pystr) : list pystr := finditer_from (length s) s.

(** [str.replace]: every single quote becomes a double quote. *)
Definition replace_quotes (s : pystr) : pystr :=
  map (λ c, if chr_eq c "'" then dquote else c) s.

(** The body of the loop for one match: the object it appends, if any.
    The three [re.sub] calls replace each keyword by itself and leave the
    text as it is.  The [except] clause catches [JSONDecodeError] and
    [ValueError] and goes on; any other exception leaves the function. *)
Definition normalize_fragment (m : pystr) : result (option value) :=
  let s := replace_quotes m in
  match json_loads s with
  | Parsed obj =>
      if is_dict obj && has_key obj (lit "id") && has_key obj (lit "data")
      then Ok (Some obj)
      else Ok None
  | DecodeError => Ok None
  | OtherError => Err UncaughtException
  end.

(** The loop over the matches; [puzzles] is the list built so far. *)
Fixpoint collect (ms : list pystr) (puzzles : list value)
    : result (list value) :=
  match ms with
  | [] => Ok puzzles
  | m :: rest =>
      match normalize_fragment m with
      | Ok (Some obj) => collect rest (puzzles ++ [obj])
      | Ok None => collect rest puzzles
      | Err e => Err e
      end
  end.

(** The loop of [parse_preloaded_puzzles] over the array interior. *)
Definition normalize (blob : pystr) : result (list value) :=
  collect (finditer blob) [].

Definition parse_preloaded_puzzles (html : pystr) : result (list value) :=
  blob ← Extractor._extract_js_array_contents html (lit "preloadedPuzzles");
  normalize blob.

End normalizer.
End Normalizer.

(** *** The fragments of an array interior

    What the normalizer is compared with; none of this is taken from the
    code.  A fragment runs from an opening brace to the next closing
    brace, with one character or more between the two; the fragments of a
    text are taken from left to right, without overlap.  A fragment is
    kept when its text, every single quote rewritten to a double quote,
    parses as a mapping that has an [id] key and a [data] key. *)

Module Fragments.

Definition is_fragment (m : pystr) : Prop :=
  ∃ inner, m = "{"%char :: inner ++ ["}"%char]
           ∧ inner ≠ [] ∧ Forall (λ c, c ≠ "}"%char) inner.

Definition starts_with_fragment (s : pystr) : Prop :=
  ∃ m rest, is_fragment m ∧ s = m ++ rest.

Inductive fragments_of : pystr → list pystr → Prop :=
  | fragments_end : fragments_of [] []
  | fragments_take m rest ms :
      is_fragment m → fragments_of rest ms →
      fragments_of (m ++ rest) (m :: ms)
  | fragments_skip c t ms :
      ¬ starts_with_fragment (c :: t) → fragments_of t ms →
      fragments_of (c :: t) ms.

Fixpoint rewritten (m : pystr) : pystr :=
  match m with
  | [] => []
  | c :: t => (if Ascii.eqb c "'" then dquote else c) :: rewritten t
  end.

Section verdicts.
Context {value : Type}.
Variable json_loads : pystr → Normalizer.loaded value.
Variable is_dict : value → bool.
Variable has_key : value → pystr → bool.

(** A fragment is valid, with its record; or malformed: it fails to
    parse, or parses to something that is no mapping or lacks a key; or
    the parser fails on it with an error that is no decode error. *)
Inductive verdict : Type :=
  | Valid (record : value)
  | Malformed
  | Fatal.

Definition verdict_of (m : pystr) : verdict :=
  match json_loads (rewritten m) with
  | Normalizer.Parsed obj =>
      if is_dict obj then
        if has_key obj (lit "id") then
          if has_key obj (lit "data") then Valid obj else Malformed
        else Malformed
      else Malformed
  | Normalizer.DecodeError => Malformed
  | Normalizer.OtherError => Fatal
  end.

Definition is_valid (m : pystr) : bool :=
  match verdict_of m with Valid _ => true | _ => false end.

Definition is_malformed (m : pystr) : bool :=
  match verdict_of m with Malformed => true | _ => false end.

Definition is_fatal (m : pystr) : bool :=
  match verdict_of m with Fatal => true | _ => false end.

(** The records of the valid fragments, in order. *)
Fixpoint records (ms : list pystr) : list value :=
  match ms with
  | [] => []
  | m :: rest =>
      match verdict_of m with
      | Valid record => record :: records rest
      | _ => records rest
      end
  end.

End verdicts.

(** An interior written as the array of a page is: object literals with
    text between them that opens no brace. *)
Definition brace_free (text : pystr) : Prop :=
  Forall (λ c, c ≠ "{"%char) text.

Fixpoint interior (items : list (pystr * pystr)) (tail : pystr) : pystr :=
  match items with
  | [] => tail
  | (gap, inner) :: rest =>
      gap ++ "{"%char :: inner ++ "}"%char :: interior rest tail
  end.

Definition literal (item : pystr * pystr) : pystr :=
  "{"%char :: item.2 ++ ["}"%char].

Definition item_ok (item : pystr * pystr) : Prop :=
  brace_free item.1 ∧ item.2 ≠ [] ∧ Forall (λ c, c ≠ "}"%char) item.2.

End Fragments.

(** A stand-in for the JSON library, for examples: a text nested deeper
    than [recursion_limit] brackets makes the parser fail with an error
    that is no decode error; otherwise a text parses when it opens with a
    brace and a double quote, and has the keys it quotes. *)
Module ToyJson.

Definition recursion_limit : nat := 1000.

(** The deepest nesting of square brackets in [s], [d] being open. *)
Fixpoint depth_from (d deepest : nat) (s : pystr) : nat :=
  match s with
  | [] => deepest
  | c :: t =>
      if chr_eq c "[" then depth_from (S d) (Nat.max deepest (S d)) t
      else if chr_eq c "]" then depth_from (pred d) deepest t
      else depth_from d deepest t
  end.

Definition loads (s : pystr) : Normalizer.loaded pystr :=
  if recursion_limit <? depth_from 0 0 s then Normalizer.OtherError
  else if startswith ["{"%char; dquote] s then Normalizer.Parsed s
  else Normalizer.DecodeError.

Definition is_dict (obj : pystr) : bool := true.

Definition has_key (obj k : pystr) : bool :=
  bool_decide (is_Some (find (dquote :: k ++ [dquote; ":"%char]) obj)).

(** An interior with three fragments: a record, one that does not parse,
    one with no [data] key; an empty pair of braces before them and a
    brace left open after them. *)
Definition blob : pystr :=
  lit " {}, {'id': 'a1', 'data': 'x'}, {id: 7}{'id': 'a2'}}, {'id': 'a3'".

(** A record whose [data] is nested deeper than the parser goes. *)
Definition deep (n : nat) : pystr :=
  lit "{'id': 'a1', 'data': " ++ repeat "["%char n ++ repeat "]"%char n
    ++ lit "}".

End ToyJson.

(** ** More of Python's [str] *)

(** [str.lower] on one character: [A]..[Z] become [a]..[z]. *)
Definition lower_chr (c : ascii) : ascii :=
  let n := nat_of_ascii c in
  if (65 <=? n) && (n <=? 90) then ascii_of_nat (n + 32) else c.

Definition lower (s : pystr) : pystr := map lower_chr s.

(** [str.strip] removes the characters for which [str.isspace] holds,
    from both ends.  They are the ASCII characters below and nineteen
    characters outside ASCII, which the text holds as the two or three
    bytes of their UTF-8 form. *)
Definition is_space (c : ascii) : bool :=
  let n := nat_of_ascii c in
  ((9 <=? n) && (n <=? 13)) || ((28 <=? n) && (n <=? 32)).

(** U+0085 and U+00A0 *)
Definition is_space2 (a b : ascii) : bool :=
  (nat_of_ascii a =? 194)
  && ((nat_of_ascii b =? 133) || (nat_of_ascii b =? 160)).

(** U+1680, U+2000 to U+200A, U+2028, U+2029, U+202F, U+205F and U+3000 *)
Definition is_space3 (a b c : ascii) : bool :=
  ((nat_of_ascii a =? 225) && (nat_of_ascii b =? 154)
   && (nat_of_ascii c =? 128))
  || ((nat_of_ascii a =? 226) && (nat_of_ascii b =? 128)
      && (((128 <=? nat_of_ascii c) && (nat_of_ascii c <=? 138))
          || (nat_of_ascii c =? 168) || (nat_of_ascii c =? 169)
          || (nat_of_ascii c =? 175)))
  || ((nat_of_ascii a =? 226) && (nat_of_ascii b =? 129)
      && (nat_of_ascii c =? 159))
  || ((nat_of_ascii a =? 227) && (nat_of_ascii b =? 128)
      && (nat_of_ascii c =? 128)).

Fixpoint lstrip (s : pystr) : pystr :=
  match s with
  | a :: t =>
      if is_space a then lstrip t
      else
        match t with
        | b :: t' =>
            if is_space2 a b then lstrip t'
            else
              match t' with
              | c :: t'' => if is_space3 a b c then lstrip t'' else s
              | [] => s
              end
        | [] => s
        end
  | [] => []
  end.

(** [rstrip] on the text read from its end: the bytes of a character
    come last byte first. *)
Fixpoint rstrip_reversed (s : pystr) : pystr :=
  match s with
  | c :: t =>
      if is_space c then rstrip_reversed t
      else
        match t with
        | b :: t' =>
            if is_space2 b c then rstrip_reversed t'
            else
              match t' with
              | a :: t'' =>
                  if is_space3 a b c then rstrip_reversed t'' else s
              | [] => s
              end
        | [] => s
        end
  | [] => []
  end.

Definition rstrip (s : pystr) : pystr := rev (rstrip_reversed (rev s)).

Definition strip (s : pystr) : pystr := rstrip (lstrip s).

(** [s.endswith(suffix)] *)
Definition endswith (suffix s : pystr) : bool :=
  startswith (rev suffix) (rev s).

(** [sub in s] *)
Definition contains (sub s : pystr) : bool :=
  match find sub s with Some _ => true | None => false end.

(** [s.split("-")[0]] *)
Fixpoint first_segment (s : pystr) : pystr :=
  match s with
  | c :: t => if chr_eq c "-" then [] else c :: first_segment t
  | [] => []
  end.

(** [str(n)] for an integer *)
Definition str_of_Z (n : Z) : pystr := lit (NilZero.string_of_int (Z.to_int n)).

(** [list(enumerate(l))] *)
Definition enumerate {A} (l : list A) : list (nat * A) := imap pair l.

(** ** Puzzle corpus store *)

Module Corpus.

(** A stored document, as far as the program reads it back: the fields
    behind [doc.get], [None] where the key is absent, and the grids. *)
Record PuzzleDocument : Type := {
  created_utc : option pystr;
  preset_key : option pystr;
  size : option Z;
  picked_id : option pystr;
  clues : list (list Z);
  solution : list (list Z)
}.

(** What reading a file and parsing it gives: text that is not JSON
    ([json.loads] raises), JSON on which the [get] calls raise, or a
    document.  [json.loads (json.dumps doc)] is [doc]. *)
Inductive FileContent : Type :=
  | NotJson
  | NotObject
  | Document (doc : PuzzleDocument).

Record File : Type := {
  mtime : Z;
  content : FileContent
}.

(** The directory [PUZZLES_DIR]: file names to files. *)
Abbreviation Directory := (gmap pystr File).

(** [[0-9A-Fa-f-]] *)
Definition is_id_char (c : ascii) : bool :=
  let n := nat_of_ascii c in
  ((48 <=? n) && (n <=? 57)) || ((65 <=? n) && (n <=? 70))
  || ((97 <=? n) && (n <=? 102)) || chr_eq c "-".

Definition _normalize_id_fragment (value : pystr) : result pystr :=
  let s := strip value in
  match s with
  | [] => Err EmptyIdentifier
  | _ :: _ =>
      if forallb is_id_char s && (length s <=? 64) then Ok s
      else Err InvalidIdentifier
  end.

Definition puzzle_json_filename
    (stamp preset_key : pystr) (size : Z) (puzzle_id : pystr) : pystr :=
  let short := first_segment puzzle_id in
  stamp ++ lit "_" ++ preset_key ++ lit "_" ++ str_of_Z size ++ lit "x"
    ++ str_of_Z size ++ lit "_" ++ short ++ lit ".json".

(** [doc.get("created_utc") or utc_stamp()]: [now_stamp] is what
    [utc_stamp()] returns at the time of the call. *)
Definition stamp_of (doc : PuzzleDocument) (now_stamp : pystr) : pystr :=
  match created_utc doc with
  | Some ((_ :: _) as s) => s
  | _ => now_stamp
  end.

Definition path_of (doc : PuzzleDocument) (now_stamp : pystr) : pystr :=
  puzzle_json_filename
    (stamp_of doc now_stamp)
    (default (lit "preset") (preset_key doc))
    (default 0%Z (size doc))
    (default (lit "unknown") (picked_id doc)).

(** [write_puzzle_json]: the file at the derived path is created or
    replaced; [now] is the modification time it gets. *)
Definition write_puzzle_json
    (dir : Directory) (doc : PuzzleDocument) (now_stamp : pystr) (now : Z)
    : Directory * pystr :=
  let path := path_of doc now_stamp in
  (<[path := {| mtime := now; content := Document doc |}]> dir, path).

Definition older (a b : pystr * File) : Prop := (mtime a.2 ≤ mtime b.2)%Z.

#[global] Instance older_dec : RelDecision older.
Proof. intros a b. unfold older. apply _. Defined.

(** [sorted(PUZZLES_DIR.glob("*.json"), key=mtime)]: oldest first.  The
    order of files of equal modification time is that of the directory
    listing, which nothing fixes. *)
Definition list_puzzle_jsons (dir : Directory) : list (pystr * File) :=
  merge_sort older
    (List.filter (λ p, endswith (lit ".json") p.1) (map_to_list dir)).


Definition suffix_of (sid : pystr) : pystr := lit "_" ++ sid ++ lit ".json".

(** [p.name.lower().endswith(f"_{sid}.json")] *)
Definition name_matches (sid : pystr) (p : pystr * File) : bool :=
  endswith (suffix_of sid) (lower p.1).

Definition find_puzzle_json_by_short_id
    (dir : Directory) (short_id : pystr) : result pystr :=
  normalized ← _normalize_id_fragment short_id;
  let sid := lower (first_segment normalized) in
  let matches := List.filter (name_matches sid) (list_puzzle_jsons dir) in
  match last matches with
  | None => Err (ShortIdNotStored short_id)
  | Some p => Ok p.1
  end.

(** The body of both [for] loops of [find_puzzle_json_by_id]: the file is
    read and parsed, and its [picked.id] (the empty string when absent)
    is compared in lower case; any exception moves on to the next file. *)
Definition id_matches (normalized : pystr) (p : pystr * File) : bool :=
  match content p.2 with
  | Document d =>
      bool_decide (lower (default [] (picked_id d)) = lower normalized)
  | NotJson | NotObject => false
  end.

Definition find_puzzle_json_by_id
    (dir : Directory) (puzzle_id : pystr) : result pystr :=
  normalized ← _normalize_id_fragment puzzle_id;
  let sid := lower (first_segment normalized) in
  let files := list_puzzle_jsons dir in
  let candidates := List.filter (name_matches sid) files in
  let fast :=
    match candidates with
    | [] => None
    | _ :: _ =>
        if negb (contains (lit "-") normalized) then last candidates
        else List.find (id_matches normalized) (rev candidates)
    end in
  match fast with
  | Some p => Ok p.1
  | None =>
      match List.find (id_matches normalized) (rev files) with
      | Some p => Ok p.1
      | None => Err (IdNotStored puzzle_id)
      end
  end.

(** [_previously_used_puzzle_ids]: only [JSONDecodeError] and [OSError]
    are caught here, so JSON that is no object ends the run. *)
Fixpoint used_ids_of (files : list (pystr * File)) (used : gset pystr)
    : result (gset pystr) :=
  match files with
  | [] => Ok used
  | p :: rest =>
      match content p.2 with
      | NotJson => used_ids_of rest used
      | NotObject => Err UncaughtException
      | Document d =>
          match picked_id d with
          | Some ((_ :: _) as pid) => used_ids_of rest ({[pid]} ∪ used)
          | _ => used_ids_of rest used
          end
      end
  end.

Definition _previously_used_puzzle_ids (dir : Directory)
    : result (gset pystr) :=
  used_ids_of (list_puzzle_jsons dir) ∅.

End Corpus.

(** ** Picker and deduplicator: [pick_puzzle] and the batch loop of
    [cmd_get] *)

Module Picker.

(** A candidate of the fetched batch: its [id] as [str] renders it, and
    its encoded grid. *)
Record Puzzle : Type := {
  puzzle_id : pystr;
  puzzle_data : pystr
}.

(** An item of [selected]: the puzzle, its index in its batch, and the
    size of that batch. *)
Abbreviation Selected := (Puzzle * nat * nat)%type.

(** [str(p.get("id"))] for the puzzle [p] of an item. *)
Definition selected_id (it : Selected) : pystr := puzzle_id it.1.1.

Section picker.

(** Python's [random] module is not part of the program.  [seeded s] is
    [random.Random(s)] for a string [s]; [unseeded e] is
    [random.Random(None)], which draws its state [e] from the operating
    system; [randrange g n] is [g.randrange(n)]. *)
Context {rng entropy : Type}.
Variable seeded : pystr → rng.
Variable unseeded : entropy → rng.
Variable randrange : rng → nat → nat.

Definition Random (seed : option pystr) (e : entropy) : rng :=
  match seed with
  | Some s => seeded s
  | None => unseeded e
  end.

(** The [matches] of the selection by identifier fragment. *)
Definition fragment_matches (needle : pystr) (puzzles : list Puzzle)
    : list (nat * Puzzle) :=
  List.filter
    (λ ip, match needle with [] => false | _ :: _ => true end
           && contains needle (lower (puzzle_id ip.2)))
    (enumerate puzzles).

(** The pool of the random selection: the candidates whose id is not in
    [used_ids], or all of them when there is none. *)
Definition fresh_of (used_ids : gset pystr) (puzzles : list Puzzle)
    : list (nat * Puzzle) :=
  List.filter (λ ip, bool_decide (puzzle_id ip.2 ∉ used_ids))
    (enumerate puzzles).

Definition pool_of (used_ids : gset pystr) (puzzles : list Puzzle)
    : list (nat * Puzzle) :=
  match fresh_of used_ids puzzles with
  | [] => enumerate puzzles
  | (_ :: _) as fresh => fresh
  end.

Definition pick_puzzle
    (dir : Corpus.Directory) (e : entropy) (puzzles : list Puzzle)
    (index : option Z) (puzzle_id : option pystr) (seed : option pystr)
    : result (Puzzle * nat) :=
  match puzzles with
  | [] => Err NoPuzzlesFound
  | _ :: _ =>
      match puzzle_id with
      | Some fragment =>
          normalized ← Corpus._normalize_id_fragment fragment;
          let needle := lower normalized in
          let matches := fragment_matches needle puzzles in
          match matches with
          | [] => Err (FragmentNotFound fragment)
          | [(i, p)] => Ok (p, i)
          | _ :: _ :: _ =>
              Err (AmbiguousIdentifier (length matches)
                     (map (λ ip, Picker.puzzle_id ip.2) (take 5 matches))
                     (length matches - 5))
          end
      | None =>
          match index with
          | Some idx =>
              let i := if (idx =? 0)%Z then 0%Z else (idx - 1)%Z in
              if (i <? 0)%Z || (Z.of_nat (length puzzles) <=? i)%Z then
                Err (IndexOutOfRange idx (length puzzles))
              else
                match puzzles !! Z.to_nat i with
                | Some p => Ok (p, Z.to_nat i)
                | None => Err UncaughtException
                end
          | None =>
              used_ids ← Corpus._previously_used_puzzle_ids dir;
              let pool := pool_of used_ids puzzles in
              let g := Random seed e in
              match pool !! randrange g (length pool) with
              | Some (i, puzzle) => Ok (puzzle, i)
              | None => Err UncaughtException
              end
          end
      end
  end.

(** *** The batch loop of [cmd_get], for [--count] above one *)

(** [shuffle g l] is [random.shuffle(l)] on the module's generator in
    state [g]: the list as shuffled and the state after; [fetch n] is
    the batch the [n]-th request to the site returns, parsed. *)
Context {grng : Type}.
Variable shuffle : grng → list Selected → list Selected * grng.
Variable fetch : nat → list Puzzle.

Record loop_state : Type := {
  selected : list Selected;
  seen_ids : gset pystr;
  attempts : nat;
  gen : grng
}.

Definition max_attempts_of (count : nat) : nat := Nat.max 5 (count * 4).

(** The [fresh] list of one batch. *)
Definition fresh_items (used_ids seen : gset pystr) (puzzles : list Puzzle)
    : list Selected :=
  List.filter
    (λ it : Selected,
       bool_decide (selected_id it ∉ used_ids)
       && bool_decide (selected_id it ∉ seen))
    (imap (λ i p, (p, i, length puzzles)) puzzles).

(** One turn of the [while] loop. *)
Definition loop_body (count : nat) (used_ids : gset pystr) (st : loop_state)
    : loop_state :=
  let puzzles := fetch (attempts st) in
  let fresh := fresh_items used_ids (seen_ids st) puzzles in
  match fresh with
  | [] =>
      {| selected := selected st; seen_ids := seen_ids st;
         attempts := S (attempts st); gen := gen st |}
  | _ :: _ =>
      let '(shuffled, g') := shuffle (gen st) fresh in
      let needed := count - length (selected st) in
      let taken := take needed shuffled in
      {| selected := selected st ++ taken;
         seen_ids :=
           list_to_set (map selected_id taken) ∪ seen_ids st;
         attempts := S (attempts st);
         gen := g' |}
  end.

(** [while len(selected) < count and attempts < max_attempts]; every turn
    adds one to [attempts], so [max_attempts] turns are enough. *)
Fixpoint loop (fuel count : nat) (used_ids : gset pystr) (st : loop_state)
    : loop_state :=
  match fuel with
  | O => st
  | S fuel' =>
      if (length (selected st) <? count)
         && (attempts st <? max_attempts_of count)
      then loop fuel' count used_ids (loop_body count used_ids st)
      else st
  end.

Definition run_loop (count : nat) (used_ids : gset pystr) (g : grng)
    : loop_state :=
  loop (max_attempts_of count) count used_ids
    {| selected := []; seen_ids := ∅; attempts := 0; gen := g |}.

(** The [else] branch of [cmd_get] up to its [raise SystemExit]. *)
Definition pick_many (count : nat) (used_ids : gset pystr) (g : grng)
    : result (list Selected) :=
  let st := run_loop count used_ids g in
  if length (selected st) <? count then
    Err (InsufficientUniquePuzzles (length (selected st)) (attempts st) count)
  else Ok (selected st).

End picker.
End Picker.

(** ** Crop geometry: [crop_box_image] and [crop_cell_image] *)

Module Crop.

Abbreviation Rect := (Z * Z * Z * Z)%type.

Section crop.

(** [get_block_dims] comes from [sudoku_fetcher], which is not part of
    this file: the block width and height of a grid of the given size. *)
Variable get_block_dims : Z → Z * Z.

(** The rectangle [(x0, y0, x1, y1)] of a box, before padding. *)
Definition box_rect (size box_r box_c margin cell_size : Z) : Rect :=
  let '(bw, bh) := get_block_dims size in
  let br0 := (box_r - 1)%Z in
  let bc0 := (box_c - 1)%Z in
  let left := margin in
  let top := margin in
  let x0 := (left + (bc0 * bw) * cell_size)%Z in
  let y0 := (top + (br0 * bh) * cell_size)%Z in
  let x1 := (x0 + (bw * cell_size))%Z in
  let y1 := (y0 + (bh * cell_size))%Z in
  (x0, y0, x1, y1).

(** The rectangle of a cell, before padding. *)
Definition cell_rect (r c margin cell_size : Z) : Rect :=
  let rr0 := (r - 1)%Z in
  let cc0 := (c - 1)%Z in
  let left := margin in
  let top := margin in
  let x0 := (left + cc0 * cell_size)%Z in
  let y0 := (top + rr0 * cell_size)%Z in
  let x1 := (x0 + cell_size)%Z in
  let y1 := (y0 + cell_size)%Z in
  (x0, y0, x1, y1).

Definition pad : Z := 6.

(** The rectangle handed to [img.crop]: padded, and clamped to an image
    [width] by [height]. *)
Definition crop_area (width height : Z) (rect : Rect) : Rect :=
  let '(x0, y0, x1, y1) := rect in
  (Z.max 0 (x0 - pad), Z.max 0 (y0 - pad),
   Z.min width (x1 + pad), Z.min height (y1 + pad))%Z.

Definition crop_box_image
    (width height size box_r box_c margin cell_size : Z) : Rect :=
  crop_area width height (box_rect size box_r box_c margin cell_size).

Definition crop_cell_image (width height r c margin cell_size : Z) : Rect :=
  crop_area width height (cell_rect r c margin cell_size).

End crop.
End Crop.

(** ** Data for examples *)

Module Examples.

Definition doc (stamp id : string) : Corpus.PuzzleDocument :=
  {| Corpus.created_utc := Some (lit stamp);
     Corpus.preset_key := Some (lit "easy9");
     Corpus.size := Some 9%Z;
     Corpus.picked_id := Some (lit id);
     Corpus.clues := [];
     Corpus.solution := [] |}.

(** Three stored puzzles whose identifiers share their first segment. *)
Definition doc1 : Corpus.PuzzleDocument :=
  doc "2026-01-01_000001Z" "324306f5-034d-4089-8723-56a8087fde14".
Definition doc2 : Corpus.PuzzleDocument :=
  doc "2026-01-01_000002Z" "324306f5-aaaa-4089-8723-000000000002".
Definition doc3 : Corpus.PuzzleDocument :=
  doc "2026-01-01_000003Z" "324306f5-bbbb-4089-8723-000000000003".

Definition stored (dir : Corpus.Directory) (d : Corpus.PuzzleDocument)
    (now : Z) : Corpus.Directory :=
  (Corpus.write_puzzle_json dir d (lit "2026-01-02_000000Z") now).1.

Definition dir1 : Corpus.Directory := stored ∅ doc1 1.
Definition dir3 : Corpus.Directory := stored (stored dir1 doc2 2) doc3 3.

(** The second and the third only. *)
Definition dir23 : Corpus.Directory := stored (stored ∅ doc2 2) doc3 3.

Definition puzzle (id : string) : Picker.Puzzle :=
  {| Picker.puzzle_id := lit id; Picker.puzzle_data := lit "0" |}.

(** A batch of three candidates, the first of which is stored in [dir1]. *)
Definition batch : list Picker.Puzzle :=
  [ puzzle "324306f5-034d-4089-8723-56a8087fde14";
    puzzle "324306f5-aaaa-4089-8723-000000000002";
    puzzle "77777777-bbbb-4089-8723-000000000003" ].

(** A stand-in for [random]: the state is a number, a seed gives its
    length, and a draw is the state modulo the bound. *)
Definition seeded (s : pystr) : nat := length s.
Definition unseeded (e : nat) : nat := e.
Definition randrange (g n : nat) : nat := g mod n.

End Examples.

(** Two different puzzles fetched in the same second whose identifiers
    share their first segment. *)
Module SameSecond.

Definition doc_a : Corpus.PuzzleDocument :=
  Examples.doc "2026-01-01_000001Z" "324306f5-034d-4089-8723-56a8087fde14".
Definition doc_b : Corpus.PuzzleDocument :=
  Examples.doc "2026-01-01_000001Z" "324306f5-ffff-4089-8723-000000000009".

Definition after_both : Corpus.Directory :=
  Examples.stored (Examples.stored ∅ doc_a 1) doc_b 1.

End SameSecond.

(** A fourth puzzle behind the same short id, not yet stored. *)
Definition new_doc : Corpus.PuzzleDocument :=
  Examples.doc "2026-01-01_000004Z" "324306f5-cccc-4089-8723-000000000004".

(** A site that repeats one puzzle inside a batch, and a [shuffle] that
    keeps the order. *)
Module RepeatingSite.

Definition keep_order (g : unit) (l : list Picker.Selected)
    : list Picker.Selected * unit := (l, g).

Definition fetch (n : nat) : list Picker.Puzzle :=
  [ Examples.puzzle "aaaaaaaa-0001";
    Examples.puzzle "aaaaaaaa-0001";
    Examples.puzzle "bbbbbbbb-0002" ].

(** A site whose batches hold two new puzzles and a stored one. *)
Definition fetch_two (n : nat) : list Picker.Puzzle :=
  [ Examples.puzzle "aaaaaaaa-0001";
    Examples.puzzle "cccccccc-0003";
    Examples.puzzle "bbbbbbbb-0002" ].

End RepeatingSite.

(** ** Cell text: [format_cell_value] *)





(** ** Reveal: the box and the cell that [cmd_reveal] selects *)

Module Reveal.

      (* ValueError: chr() arg not in range(0x110000) *)

Section reveal.

(** [get_block_dims] comes from [sudoku_fetcher], which is not part of
    this file: the block width and height of a grid of the given size. *)
Variable get_block_dims : Z → Z * Z.



End reveal.
End Reveal.

(** * Properties *)

(** ** Strings *)

Lemma chr_eq_true a b : chr_eq a b = true ↔ a = b.
Proof. apply Ascii.eqb_eq. Qed.

Lemma chr_eq_false a b : chr_eq a b = false ↔ a ≠ b.
Proof. apply Ascii.eqb_neq. Qed.

Lemma chr_eq_refl a : chr_eq a a = true.
Proof. by apply chr_eq_true. Qed.

Lemma startswith_spec p s : startswith p s = true ↔ ∃ t, s = p ++ t.
Proof.
  revert s. induction p as [|a p IH]; intros s; simpl.
  - split; eauto.
  - destruct s as [|b s].
    + split; [done | intros [t Ht]; done].
    + rewrite andb_true_iff, chr_eq_true, IH. split.
      * intros [-> [t ->]]. eauto.
      * intros [t Ht]. injection Ht as -> ->. eauto.
Qed.

Lemma find_from_unfold sub s i :
  find_from sub s i =
    if startswith sub s then Some i
    else match s with [] => None | _ :: s' => find_from sub s' (S i) end.
Proof. by destruct s. Qed.

Lemma find_from_Some sub s i p :
  find_from sub s i = Some p →
  ∃ pre post, s = pre ++ sub ++ post ∧ p = i + length pre
    ∧ ∀ pre' post', s = pre' ++ sub ++ post' → length pre ≤ length pre'.
Proof.
  revert i. induction s as [|c s IH]; intros i; rewrite find_from_unfold;
    destruct (startswith sub _) eqn:Hsw.
  - intros [= <-]. apply startswith_spec in Hsw as [t Ht].
    exists [], t. simpl. repeat split; [done | lia | intros; lia].
  - done.
  - intros [= <-]. apply startswith_spec in Hsw as [t Ht].
    exists [], t. simpl. repeat split; [done | lia | intros; lia].
  - intros H. apply IH in H as (pre & post & -> & -> & Hmin).
    exists (c :: pre), post. simpl. repeat split; [lia |].
    intros [|c' pre'] post' Heq; simpl in *.
    + assert (startswith sub (c :: pre ++ sub ++ post) = true) as Hc
        by (apply startswith_spec; eauto).
      congruence.
    + injection Heq as _ Heq. apply Hmin in Heq. lia.
Qed.

Lemma find_from_None sub s i :
  find_from sub s i = None → ∀ pre post, s ≠ pre ++ sub ++ post.
Proof.
  revert i. induction s as [|c s IH]; intros i; rewrite find_from_unfold;
    destruct (startswith sub _) eqn:Hsw; try done.
  - intros _ pre post Heq.
    assert (startswith sub [] = true) as Hc; [|congruence].
    apply startswith_spec. destruct pre; [eauto | done].
  - intros H [|c' pre] post Heq; simpl in *.
    + assert (startswith sub (c :: s) = true) as Hc; [|congruence].
      apply startswith_spec; eauto.
    + injection Heq as _ Heq. by eapply IH.
Qed.

Lemma find_first_occurrence sub s p :
  find sub s = Some p ↔ ArrayText.first_occurrence sub s p.
Proof.
  unfold find, ArrayText.first_occurrence, ArrayText.occurs_at. split.
  - intros H. apply find_from_Some in H as (pre & post & -> & -> & Hmin).
    split; [by eauto |]. intros p' (pre' & post' & Heq & <-). eauto.
  - intros [(pre & post & -> & <-) Hmin].
    destruct (find_from sub _ 0) as [p|] eqn:Hf.
    + apply find_from_Some in Hf as (pre' & post' & Heq & -> & Hmin').
      f_equal. simpl. apply Nat.le_antisymm; [by eauto |].
      apply Hmin. eauto.
    + by eapply find_from_None in Hf.
Qed.

Lemma find_no_occurrence sub s :
  find sub s = None ↔ ¬ ArrayText.occurs sub s.
Proof.
  unfold ArrayText.occurs, ArrayText.occurs_at. split.
  - intros H (p & pre & post & Heq & _). by eapply find_from_None in H.
  - intros Hno. destruct (find sub s) as [p|] eqn:Hf; [|done].
    apply find_from_Some in Hf as (pre & post & Heq & _). destruct Hno. eauto.
Qed.

(** The value ["a\\]b"] of the specification: the bracket after the escaped
    backslash is still inside the string. *)
Example extract_escaped_bracket :
  Extractor._extract_js_array_contents
    (lit "<script>const v = [" ++ dquote :: lit "a\\]b" ++ dquote
       :: lit ", [1]]; const w = [];</script>") (lit "v")
  = Ok (dquote :: lit "a\\]b" ++ dquote :: lit ", [1]").
Proof. vm_compute. reflexivity. Qed.

(** An escaped quote does not end its string: the bracket after it is
    still inside. *)
Example extract_escaped_quote :
  Extractor._extract_js_array_contents
    (lit "const v = ['it\'s ]', " ++ dquote :: lit "[\" ++ dquote
       :: lit "]" ++ dquote :: lit "];") (lit "v")
  = Ok (lit "'it\'s ]', " ++ dquote :: lit "[\" ++ dquote
          :: lit "]" ++ dquote :: []).
Proof. vm_compute. reflexivity. Qed.

(** ** The scanner on well-formed array text *)

Section scanner.
Import Extractor ArrayText.

Lemma is_quote_not_backslash q : is_quote q = true → chr_eq q "\" = false.
Proof.
  unfold is_quote. rewrite orb_true_iff, !chr_eq_true. by intros [-> | ->].
Qed.

Lemma is_quote_not_bracket q :
  is_quote q = true → chr_eq q "[" = false ∧ chr_eq q "]" = false.
Proof.
  unfold is_quote. rewrite orb_true_iff, !chr_eq_true. by intros [-> | ->].
Qed.

Lemma render_string_cons x s :
  render_string (x :: s) = render_strchar x ++ render_string s.
Proof. done. Qed.

#[local] Arguments render_string : simpl never.

(** A whole quoted string leaves the depth as it was, whatever it holds. *)
Lemma scan_string q s d i k :
  is_quote q = true → forallb (strchar_ok q) s = true →
  scan_loop (ScanState d true (Some q) false) i (render_string s ++ q :: k)
  = scan_loop (ScanState d false (Some q) false)
      (i + length (render_string s) + 1) k.
Proof.
  intros Hq. revert i. induction s as [|x s IH]; intros i Hs.
  - simpl. unfold scan_step; simpl.
    rewrite (is_quote_not_backslash q Hq), chr_eq_refl. f_equal; lia.
  - simpl in Hs. apply andb_true_iff in Hs as [Hx Hs].
    rewrite render_string_cons. destruct x as [c|c]; simpl.
    + apply andb_true_iff in Hx as [H1 H2]. apply negb_true_iff in H1, H2.
      unfold scan_step; simpl. rewrite H1, H2, IH by done. f_equal; lia.
    + unfold scan_step; simpl. unfold scan_step; simpl.
      rewrite IH by done. f_equal; lia.
Qed.

Lemma scan_body b :
  well_formed b = true → ∀ d q0 i k, (0 < d)%Z →
  ∃ q1, scan_loop (ScanState d false q0 false) i (render b ++ k)
        = scan_loop (ScanState d false q1 false) (i + length (render b)) k.
Proof.
  induction b as [|c rest IH|q s rest IH|inner IHi rest IHr];
    simpl; intros Hwf d q0 i k Hd'.
  - exists q0. f_equal; lia.
  - rewrite !andb_true_iff, !negb_true_iff in Hwf.
    destruct Hwf as [[[Ha Hb] Hc] Hd].
    unfold scan_step; simpl. rewrite Ha, Hb, Hc.
    destruct (IH Hd d q0 (S i) k Hd') as [q1 Hq1].
    exists q1. rewrite Hq1. f_equal; lia.
  - rewrite !andb_true_iff in Hwf. destruct Hwf as [[Ha Hb] Hc].
    unfold scan_step; simpl. rewrite Ha.
    rewrite <-app_assoc. simpl. rewrite scan_string by done.
    destruct (IH Hc d (Some q) (S i + length (render_string s) + 1) k Hd')
      as [q1 Hq1].
    exists q1. rewrite Hq1. f_equal. rewrite length_app. simpl. lia.
  - apply andb_true_iff in Hwf as [Hwi Hwr].
    unfold scan_step; simpl.
    rewrite <-app_assoc. simpl.
    destruct (IHi Hwi (d + 1)%Z q0 (S i) ("]"%char :: render rest ++ k)
                ltac:(lia)) as [q1 Hq1].
    rewrite Hq1. simpl. unfold scan_step; simpl.
    destruct (Z.eqb_spec (d + 1 - 1) 0) as [?|_]; [lia|].
    replace (d + 1 - 1)%Z with d by lia.
    destruct (IHr Hwr d q1 (S (S (i + length (render inner)))) k Hd') as [q2 Hq2].
    exists q2. rewrite Hq2. f_equal. rewrite length_app. simpl. lia.
Qed.

(** Conversely, a scan that started inside a string and returned went
    through the rest of that string first. *)
Lemma unscan_string q d s :
  is_quote q = true → ∀ e i j,
  scan_loop (ScanState d true (Some q) e) i s = Some j →
  ∃ pre str s',
    (if e then length pre = 1 else pre = [])
    ∧ forallb (strchar_ok q) str = true
    ∧ s = pre ++ render_string str ++ q :: s'
    ∧ scan_loop (ScanState d false (Some q) false)
        (i + length pre + length (render_string str) + 1) s' = Some j.
Proof.
  intros Hq. induction s as [|c s IH]; intros e i j; simpl; [done|].
  unfold scan_step; simpl. destruct e.
  - intros H. apply IH in H as (pre & str & s' & -> & Hstr & -> & H).
    exists [c], str, s'. simpl in *. repeat split; [done|].
    rewrite <-H. f_equal; lia.
  - destruct (chr_eq c "\") eqn:Hbs.
    + intros H. apply IH in H as (pre & str & s' & Hpre & Hstr & -> & H).
      destruct pre as [|c' [|]]; try done.
      apply chr_eq_true in Hbs as ->.
      exists [], (Escaped c' :: str), s'. rewrite render_string_cons.
      simpl in *. repeat split; [done|].
      rewrite <-H. f_equal; lia.
    + destruct (chr_eq c q) eqn:Hcq.
      * intros H. apply chr_eq_true in Hcq as ->.
        exists [], [], s. simpl. repeat split. rewrite <-H. f_equal; lia.
      * intros H. apply IH in H as (pre & str & s' & -> & Hstr & -> & H).
        exists [], (Plain c :: str), s'. rewrite render_string_cons.
        simpl in *. rewrite Hbs, Hcq.
        repeat split; [done|]. rewrite <-H. f_equal; lia.
Qed.

Lemma closing_cons b bs :
  closing (b :: bs) = render b ++ "]"%char :: closing bs.
Proof. unfold closing. simpl. by rewrite <-app_assoc. Qed.

(** A scan that returns from depth [m + 1] has read a well-formed body up
    to the bracket closing each of the [m + 1] open groups. *)
Lemma unscan_body n :
  ∀ s, length s ≤ n → ∀ m q0 i j,
  scan_loop (ScanState (Z.of_nat (S m)) false q0 false) i s = Some j →
  ∃ b bs post,
    length bs = m ∧ well_formed b = true ∧ forallb well_formed bs = true
    ∧ s = render b ++ "]"%char :: closing bs ++ post
    ∧ j = i + length (render b) + length (closing bs).
Proof.
  induction n as [|n IH]; intros [|c s] Hlen m q0 i j; simpl in Hlen;
    [done | lia | done |].
  cbn [scan_loop]. unfold scan_step; cbn [in_string depth string_quote escape].
  destruct (is_quote c) eqn:Hq; [|destruct (chr_eq c "[") eqn:Ho;
    [|destruct (chr_eq c "]") eqn:Hc]].
  - intros H. apply unscan_string in H as (pre & str & s' & -> & Hstr & -> & H);
      [|done].
    simpl in *. rewrite length_app in Hlen. simpl in Hlen.
    apply IH in H as (b & bs & post & Hbs & Hb & Hwbs & -> & ->); [|lia].
    exists (BString c str b), bs, post. simpl. rewrite Hq, Hstr, Hb.
    repeat split; [done..| |].
    + by rewrite <-app_assoc.
    + rewrite length_app. simpl. lia.
  - intros H. apply chr_eq_true in Ho as ->.
    replace (Z.of_nat (S m) + 1)%Z with (Z.of_nat (S (S m))) in H by lia.
    apply IH in H as (b0 & bs0 & post & Hbs & Hb & Hwbs & -> & ->); [|lia].
    destruct bs0 as [|b1 bs]; [done|]. simpl in Hbs, Hwbs.
    apply andb_true_iff in Hwbs as [Hb1 Hwbs].
    exists (BGroup b0 b1), bs, post. simpl. rewrite Hb, Hb1.
    rewrite closing_cons. repeat split; [lia | done | |].
    + by rewrite <-!app_assoc.
    + rewrite !length_app. simpl. lia.
  - apply chr_eq_true in Hc as ->.
    destruct (Z.eqb_spec (Z.of_nat (S m) - 1) 0) as [Hz|Hz].
    + intros [= <-]. assert (m = 0) as -> by lia.
      exists BEnd, [], s. simpl. repeat split. lia.
    + destruct m as [|m]; [lia|].
      replace (Z.of_nat (S (S m)) - 1)%Z with (Z.of_nat (S m)) by lia.
      intros H. apply IH in H as (b & bs & post & Hbs & Hb & Hwbs & -> & ->);
        [|lia].
      exists BEnd, (b :: bs), post. simpl. rewrite Hb, Hwbs, closing_cons.
      repeat split; try done; try lia.
      * by rewrite <-app_assoc.
      * rewrite length_app. simpl. lia.
  - intros H.
    apply IH in H as (b & bs & post & Hbs & Hb & Hwbs & -> & ->); [|lia].
    exists (BChar c b), bs, post. simpl. rewrite Hq, Ho, Hc, Hb.
    repeat split; [done..|]. lia.
Qed.

Lemma marker_of_last var_name :
  ∃ m0, marker_of var_name = m0 ++ ["["%char].
Proof.
  exists (lit "const " ++ var_name ++ lit " = ").
  unfold marker_of. by rewrite <-!app_assoc.
Qed.

(** What the function computes once the marker is found at the end of
    [pre]: the scan of the text after the opening bracket, at depth 1. *)
Lemma extract_at pre var_name tail :
  find (marker_of var_name) (pre ++ marker_of var_name ++ tail)
    = Some (length pre) →
  _extract_js_array_contents (pre ++ marker_of var_name ++ tail) var_name
  = match scan_loop (ScanState 1 false None false)
            (length pre + length (marker_of var_name)) tail with
    | Some i => Ok (take (i - (length pre + length (marker_of var_name))) tail)
    | None => Err (MalformedArray var_name)
    end.
Proof.
  intros Hfind. unfold _extract_js_array_contents. rewrite Hfind.
  destruct (marker_of_last var_name) as [m0 Hm]. rewrite Hm.
  rewrite length_app. simpl.
  replace (length pre + (length m0 + 1) - 1) with (length (pre ++ m0))
    by (rewrite length_app; lia).
  replace (pre ++ (m0 ++ ["["%char]) ++ tail)
    with ((pre ++ m0) ++ "["%char :: tail) by (by rewrite <-!app_assoc).
  rewrite drop_app_length. simpl.
  replace (length pre + (length m0 + 1)) with (S (length (pre ++ m0)))
    by (rewrite length_app; lia).
  destruct (scan_loop _ _ tail) as [i|]; [|done].
  f_equal. unfold slice.
  replace ((pre ++ m0) ++ "["%char :: tail)
    with (((pre ++ m0) ++ ["["%char]) ++ tail) by (by rewrite <-!app_assoc).
  replace (length (pre ++ m0) + 1) with (length ((pre ++ m0) ++ ["["%char]))
    by (rewrite !length_app; simpl; lia).
  rewrite drop_app_length. f_equal. rewrite !length_app. simpl. lia.
Qed.

(** The result is a success exactly when the text after the first marker
    is a well-formed array interior followed by a closing bracket, and the
    result is then that interior. *)
Lemma extract_Ok_iff html var_name r :
  _extract_js_array_contents html var_name = Ok r ↔
  ∃ pre post b,
    well_formed b = true ∧ r = render b
    ∧ html = pre ++ marker_of var_name ++ r ++ "]"%char :: post
    ∧ first_occurrence (marker_of var_name) html (length pre).
Proof.
  split.
  - intros H.
    destruct (find (marker_of var_name) html) as [p|] eqn:Hfind;
      [|by unfold _extract_js_array_contents in H; rewrite Hfind in H].
    pose proof Hfind as Hfirst. apply find_first_occurrence in Hfirst.
    destruct Hfirst as [(pre & tail & -> & <-) Hmin].
    rewrite extract_at in H by done.
    destruct (scan_loop _ _ tail) as [j|] eqn:Hscan; [|done].
    injection H as <-.
    apply (unscan_body (length tail) tail (Nat.le_refl _) 0) in Hscan
      as (b & bs & post & Hbs & Hb & _ & -> & ->).
    destruct bs; [|done]. simpl.
    replace (_ - _) with (length (render b)) by lia.
    rewrite take_app_length. exists pre, post, b.
    repeat split; try done.
    exists pre, (render b ++ "]"%char :: post). done.
  - intros (pre & post & b & Hb & -> & -> & Hfirst).
    apply find_first_occurrence in Hfirst.
    rewrite extract_at by done.
    destruct (scan_body b Hb 1 None (length pre + length (marker_of var_name))
                ("]"%char :: post) ltac:(lia)) as [q1 ->].
    simpl. f_equal.
    replace (_ - _) with (length (render b)) by lia.
    by rewrite take_app_length.
Qed.

End scanner.

(** C3. Bracket counting ignores every bracket inside a quoted string:
    inside a string a bracket changes neither the depth nor the string mode,
    a whole string (any characters, a backslash escaping the next one) is
    passed with the depth unchanged, and for every text the extractor
    succeeds with [r] exactly when the first marker is followed by a
    well-formed interior [r] (strings opaque, groups balanced) and the
    bracket that matches the opening one; [r] is the text strictly between
    the two. *)
Theorem extractor_skips_quoted_brackets :
  (∀ d q e ch,
     Extractor.is_quote q = true → ch = "["%char ∨ ch = "]"%char →
     Extractor.scan_step (Extractor.ScanState d true (Some q) e) ch
     = Extractor.Continue (Extractor.ScanState d true (Some q) false))
  ∧ (∀ q s d i k,
       Extractor.is_quote q = true →
       forallb (ArrayText.strchar_ok q) s = true →
       Extractor.scan_loop (Extractor.ScanState d true (Some q) false) i
         (ArrayText.render_string s ++ q :: k)
       = Extractor.scan_loop (Extractor.ScanState d false (Some q) false)
           (i + length (ArrayText.render_string s) + 1) k)
  ∧ (∀ html var_name r,
       Extractor._extract_js_array_contents html var_name = Ok r ↔
       ∃ pre post b,
         ArrayText.well_formed b = true ∧ r = ArrayText.render b
         ∧ html = pre ++ Extractor.marker_of var_name ++ r ++ "]"%char :: post
         ∧ ArrayText.first_occurrence (Extractor.marker_of var_name) html
             (length pre)).
Proof.
  split; [|split].
  - intros d q e ch Hq Hch. unfold Extractor.scan_step; simpl.
    destruct e; [done|].
    assert (chr_eq ch "\" = false) as -> by (by destruct Hch as [-> | ->]).
    assert (chr_eq ch q = false) as ->; [|done].
    apply chr_eq_false. intros <-.
    apply is_quote_not_bracket in Hq as [H1 H2].
    apply chr_eq_false in H1, H2. by destruct Hch.
  - intros. by apply scan_string.
  - apply extract_Ok_iff.
Qed.

(** C8, as the specification words it, fails: the marker the code looks
    for starts with [const], so a text that holds [x = []] without it is
    reported as having no marker. *)
Lemma extract_marker_without_const :
  find (lit "x = [") (lit "x = [1];") = Some 0
  ∧ Extractor._extract_js_array_contents (lit "x = [1];") (lit "x")
    = Err (MarkerNotFound (lit "x")).
Proof. split_and?; vm_compute; reflexivity. Qed.

(** C8, amended. With the marker [const <name> = []]: the extractor fails
    with the marker-not-found error exactly when the marker occurs nowhere
    in the text; it fails with the malformed-array error exactly when the
    marker occurs and the text after its first occurrence ends before the
    opening bracket is matched; these are its only failures, and in every
    other case it returns the array interior. *)
Theorem extract_outcomes html var_name :
  (Extractor._extract_js_array_contents html var_name
     = Err (MarkerNotFound var_name)
   ↔ ¬ ArrayText.occurs (Extractor.marker_of var_name) html)
  ∧ (Extractor._extract_js_array_contents html var_name
       = Err (MalformedArray var_name)
     ↔ ∃ pre tail,
         html = pre ++ Extractor.marker_of var_name ++ tail
         ∧ ArrayText.first_occurrence (Extractor.marker_of var_name) html
             (length pre)
         ∧ ∀ b post, ArrayText.well_formed b = true →
             tail ≠ ArrayText.render b ++ "]"%char :: post)
  ∧ (∀ e, Extractor._extract_js_array_contents html var_name = Err e →
          e = MarkerNotFound var_name ∨ e = MalformedArray var_name)
  ∧ (∀ r, Extractor._extract_js_array_contents html var_name = Ok r ↔
       ∃ pre post b,
         ArrayText.well_formed b = true ∧ r = ArrayText.render b
         ∧ html = pre ++ Extractor.marker_of var_name ++ r ++ "]"%char :: post
         ∧ ArrayText.first_occurrence (Extractor.marker_of var_name) html
             (length pre)).
Proof.
  split_and!.
  - rewrite <-find_no_occurrence. unfold Extractor._extract_js_array_contents.
    destruct (find _ html) as [p|]; [|done].
    split; [|done]. by destruct (Extractor.scan_loop _ _ _).
  - split.
    + intros H.
      destruct (find (Extractor.marker_of var_name) html) as [p|] eqn:Hfind;
        [|by unfold Extractor._extract_js_array_contents in H;
             rewrite Hfind in H].
      pose proof Hfind as Hfirst. apply find_first_occurrence in Hfirst.
      destruct Hfirst as [(pre & tail & -> & <-) Hmin].
      exists pre, tail. split_and!; [done | | ].
      { apply find_first_occurrence. done. }
      intros b post Hb ->. rewrite extract_at in H by done.
      destruct (scan_body b Hb 1 None
                  (length pre + length (Extractor.marker_of var_name))
                  ("]"%char :: post) ltac:(lia)) as [q1 Hq1].
      rewrite Hq1 in H. done.
    + intros (pre & tail & -> & Hfirst & Hno).
      apply find_first_occurrence in Hfirst. rewrite extract_at by done.
      destruct (Extractor.scan_loop _ _ tail) as [j|] eqn:Hscan; [|done].
      apply (unscan_body (length tail) tail (Nat.le_refl _) 0) in Hscan
        as (b & bs & post & Hbs & Hb & _ & -> & ->).
      destruct bs; [|done]. by destruct (Hno b post).
  - intros e. unfold Extractor._extract_js_array_contents.
    destruct (find _ html) as [p|]; [|intros [= <-]; by left].
    destruct (Extractor.scan_loop _ _ _); [done|]. intros [= <-]; by right.
  - intros r. apply extract_Ok_iff.
Qed.

(** ** The normalizer *)

Section normalizer_facts.
Import Normalizer.

Lemma span_not_close_spec s run rest :
  span_not_close s = (run, rest) →
  s = run ++ rest ∧ Forall (λ c, c ≠ "}"%char) run
  ∧ (rest = [] ∨ ∃ rest', rest = "}"%char :: rest').
Proof.
  revert run rest. induction s as [|c s IH]; simpl; intros run rest.
  - intros [= <- <-]. split_and!; [done | constructor | by left].
  - destruct (chr_eq c "}") eqn:Hc.
    + intros [= <- <-]. apply chr_eq_true in Hc as ->.
      split_and!; [done | constructor | right; by eexists].
    + destruct (span_not_close s) as [run' rest'].
      intros [= <- <-]. destruct (IH _ _ eq_refl) as (-> & Hrun & Hrest).
      split_and!; [done | | done].
      constructor; [by apply chr_eq_false | done].
Qed.

Lemma span_not_close_app inner rest :
  Forall (λ c, c ≠ "}"%char) inner →
  span_not_close (inner ++ "}"%char :: rest) = (inner, "}"%char :: rest).
Proof.
  induction 1 as [|c inner Hc _ IH]; simpl; [done|].
  apply chr_eq_false in Hc. by rewrite Hc, IH.
Qed.

Lemma span_not_close_length s :
  length (span_not_close s).2 ≤ length s.
Proof.
  induction s as [|c s IH]; simpl; [done|].
  destruct (chr_eq c "}"); simpl; [done|].
  destruct (span_not_close s); simpl in *. lia.
Qed.

Lemma match_fragment_shorter s m rest :
  match_fragment s = Some (m, rest) → length rest < length s.
Proof.
  destruct s as [|c t]; simpl; [done|].
  destruct (chr_eq c "{"); [|done].
  pose proof (span_not_close_length t) as Hlen.
  destruct (span_not_close t) as [[|r run] [|c' rest']]; try done.
  intros [= _ <-]. simpl in *. lia.
Qed.

(** What the pattern matches at the head of a text is a fragment, and a
    text that starts with a fragment has it matched. *)
Lemma match_fragment_Some s m rest :
  match_fragment s = Some (m, rest) →
  Fragments.is_fragment m ∧ s = m ++ rest.
Proof.
  destruct s as [|c t]; simpl; [done|].
  destruct (chr_eq c "{") eqn:Hc; [|done]. apply chr_eq_true in Hc as ->.
  destruct (span_not_close t) as [run rest0] eqn:Hspan.
  apply span_not_close_spec in Hspan as (-> & Hrun & Hrest).
  destruct run as [|r run]; [done|]. destruct rest0 as [|c' rest']; [done|].
  intros [= <- <-]. destruct Hrest as [?|[rest0 [= -> ->]]]; [done|].
  split.
  - by exists (r :: run).
  - simpl. by rewrite <-app_assoc.
Qed.

Lemma match_fragment_complete m rest :
  Fragments.is_fragment m → match_fragment (m ++ rest) = Some (m, rest).
Proof.
  intros (inner & -> & Hne & Hinner). simpl.
  rewrite <-app_assoc. simpl. rewrite span_not_close_app by done.
  by destruct inner.
Qed.

Lemma match_fragment_None s :
  match_fragment s = None → ¬ Fragments.starts_with_fragment s.
Proof.
  intros Hnone (m & rest & Hm & ->).
  by rewrite match_fragment_complete in Hnone.
Qed.

Lemma finditer_from_fuel f1 f2 s :
  length s ≤ f1 → length s ≤ f2 → finditer_from f1 s = finditer_from f2 s.
Proof.
  revert f2 s. induction f1 as [|f1 IH]; intros [|f2] s H1 H2;
    try (destruct s; simpl in *; [done | lia]).
  simpl. destruct (match_fragment s) as [[m rest]|] eqn:Hm.
  - apply match_fragment_shorter in Hm. f_equal. apply IH; lia.
  - destruct s as [|c t]; [done|]. simpl in *. apply IH; lia.
Qed.

Lemma finditer_unfold s :
  finditer s =
    match match_fragment s with
    | Some (m, rest) => m :: finditer rest
    | None => match s with [] => [] | _ :: t => finditer t end
    end.
Proof.
  unfold finditer. destruct s as [|c t]; [done|].
  change (length (c :: t)) with (S (length t)).
  cbn [finditer_from].
  destruct (match_fragment (c :: t)) as [[m rest]|] eqn:Hm; [|done].
  apply match_fragment_shorter in Hm. simpl in Hm.
  f_equal. apply finditer_from_fuel; lia.
Qed.

(** The matches of [re.finditer] are the fragments of the text, and a
    text has no other list of fragments. *)
Lemma finditer_fragments s : Fragments.fragments_of s (finditer s).
Proof.
  remember (length s) as n eqn:Hn. revert s Hn.
  induction n as [n IH] using lt_wf_ind. intros s ->.
  rewrite finditer_unfold.
  destruct (match_fragment s) as [[m rest]|] eqn:Hm.
  - pose proof (match_fragment_shorter _ _ _ Hm) as Hlen.
    apply match_fragment_Some in Hm as [Hfrag ->].
    constructor; [done|]. by eapply IH.
  - apply match_fragment_None in Hm. destruct s as [|c t]; [constructor|].
    constructor; [done|]. eapply IH; [|done]. simpl. lia.
Qed.

Lemma fragments_of_finditer s ms :
  Fragments.fragments_of s ms → ms = finditer s.
Proof.
  induction 1 as [|m rest ms Hm _ IH|c t ms Hno _ IH].
  - done.
  - by rewrite finditer_unfold, match_fragment_complete, IH.
  - rewrite finditer_unfold.
    destruct (match_fragment (c :: t)) as [[m rest]|] eqn:Hm; [|done].
    apply match_fragment_Some in Hm as [Hm Heq]. destruct Hno.
    by exists m, rest.
Qed.

Lemma fragments_of_gap gap s ms :
  Fragments.brace_free gap → Fragments.fragments_of s ms →
  Fragments.fragments_of (gap ++ s) ms.
Proof.
  induction 1 as [|c gap Hc _ IH]; [done|]. intros Hs. simpl.
  constructor; [|by apply IH].
  intros (m & rest & (inner & -> & _) & [= -> _]). done.
Qed.

Lemma fragments_of_interior items tail :
  Forall Fragments.item_ok items → Fragments.brace_free tail →
  Fragments.fragments_of (Fragments.interior items tail)
    (Fragments.literal <$> items).
Proof.
  intros Hitems Htail.
  induction Hitems as [|[gap inner] items (Hgap & Hne & Hinner) _ IH]; simpl.
  - rewrite <-(app_nil_r tail). apply fragments_of_gap; [done | constructor].
  - apply fragments_of_gap; [done|].
    change ("{"%char :: inner ++ "}"%char :: Fragments.interior items tail)
      with (("{"%char :: inner) ++ "}"%char :: Fragments.interior items tail).
    replace (("{"%char :: inner) ++ "}"%char :: Fragments.interior items tail)
      with (Fragments.literal (gap, inner) ++ Fragments.interior items tail)
      by (unfold Fragments.literal; simpl; by rewrite <-app_assoc).
    constructor; [|done]. by exists inner.
Qed.

Context {value : Type}.
Variable json_loads : pystr → loaded value.
Variable is_dict : value → bool.
Variable has_key : value → pystr → bool.

Lemma replace_quotes_rewritten m : replace_quotes m = Fragments.rewritten m.
Proof. induction m as [|c m IH]; simpl; [done|]. by rewrite IH. Qed.

Lemma normalize_fragment_verdict m :
  normalize_fragment json_loads is_dict has_key m
  = match Fragments.verdict_of json_loads is_dict has_key m with
    | Fragments.Valid record => Ok (Some record)
    | Fragments.Malformed => Ok None
    | Fragments.Fatal => Err UncaughtException
    end.
Proof.
  unfold normalize_fragment, Fragments.verdict_of.
  rewrite replace_quotes_rewritten.
  destruct (json_loads _) as [obj| |]; [|done..].
  by destruct (is_dict obj), (has_key obj (lit "id")),
       (has_key obj (lit "data")).
Qed.

Lemma collect_no_fatal ms puzzles :
  (∀ m, m ∈ ms → Fragments.is_fatal json_loads is_dict has_key m = false) →
  collect json_loads is_dict has_key ms puzzles
  = Ok (puzzles ++ Fragments.records json_loads is_dict has_key ms).
Proof.
  revert puzzles. induction ms as [|m ms IH]; intros puzzles Hms; simpl.
  - by rewrite app_nil_r.
  - rewrite normalize_fragment_verdict.
    pose proof (Hms m (list_elem_of_here _ _)) as Hm.
    unfold Fragments.is_fatal in Hm.
    destruct (Fragments.verdict_of _ _ _ m); [| |done].
    + rewrite IH by (intros; apply Hms; by right).
      by rewrite <-app_assoc.
    + apply IH. intros. apply Hms. by right.
Qed.

Lemma collect_fatal ms puzzles m :
  m ∈ ms → Fragments.is_fatal json_loads is_dict has_key m = true →
  collect json_loads is_dict has_key ms puzzles = Err UncaughtException.
Proof.
  revert puzzles. induction ms as [|m' ms IH]; intros puzzles Hin Hm.
  { by apply elem_of_nil in Hin. }
  simpl. rewrite normalize_fragment_verdict.
  apply elem_of_cons in Hin as [<-|Hin].
  - unfold Fragments.is_fatal in Hm.
    by destruct (Fragments.verdict_of _ _ _ m).
  - destruct (Fragments.verdict_of _ _ _ m'); [by apply IH..|done].
Qed.

Lemma length_records ms :
  length (Fragments.records json_loads is_dict has_key ms)
  = length (List.filter (Fragments.is_valid json_loads is_dict has_key) ms).
Proof.
  induction ms as [|m ms IH]; simpl; [done|].
  unfold Fragments.is_valid at 1.
  destruct (Fragments.verdict_of _ _ _ m); simpl; [f_equal|..]; exact IH.
Qed.

Lemma count_verdicts ms :
  (∀ m, m ∈ ms → Fragments.is_fatal json_loads is_dict has_key m = false) →
  length (List.filter (Fragments.is_valid json_loads is_dict has_key) ms)
  + length (List.filter (Fragments.is_malformed json_loads is_dict has_key) ms)
  = length ms.
Proof.
  induction ms as [|m ms IH]; intros Hms; simpl; [done|].
  pose proof (Hms m (list_elem_of_here _ _)) as Hm.
  assert (∀ m, m ∈ ms →
            Fragments.is_fatal json_loads is_dict has_key m = false) as Hms'
    by (intros; apply Hms; by right).
  specialize (IH Hms'). revert Hm.
  unfold Fragments.is_valid at 1, Fragments.is_malformed at 1,
    Fragments.is_fatal.
  destruct (Fragments.verdict_of _ _ _ m); simpl; [lia | lia | done].
Qed.

End normalizer_facts.

(** C5, as stated, fails: a fragment on which the parser gives up with an
    error that is no decode error (here a record whose [data] is nested
    two thousand brackets deep, past the depth the parser goes to) is a
    fragment that fails to parse, and the normalizer does not drop it: the
    error leaves the function, and the record of the valid fragment before
    it is lost with it. *)
Lemma normalizer_raises_on_deep_fragment :
  Fragments.fragments_of
    (lit "{'id': 'a2', 'data': 'y'}, " ++ ToyJson.deep 2000)
    [lit "{'id': 'a2', 'data': 'y'}"; ToyJson.deep 2000]
  ∧ Fragments.verdict_of ToyJson.loads ToyJson.is_dict ToyJson.has_key
      (lit "{'id': 'a2', 'data': 'y'}")
    = Fragments.Valid
        ("{"%char :: dquote :: lit "id" ++ dquote :: lit ": " ++ dquote
           :: lit "a2" ++ dquote :: lit ", " ++ dquote :: lit "data"
           ++ dquote :: lit ": " ++ dquote :: lit "y" ++ dquote :: lit "}")
  ∧ ToyJson.loads (Fragments.rewritten (ToyJson.deep 2000))
    = Normalizer.OtherError
  ∧ Normalizer.normalize ToyJson.loads ToyJson.is_dict ToyJson.has_key
      (lit "{'id': 'a2', 'data': 'y'}, " ++ ToyJson.deep 2000)
    = Err UncaughtException.
Proof.
  split_and!.
  - replace [lit "{'id': 'a2', 'data': 'y'}"; ToyJson.deep 2000]
      with (Normalizer.finditer
              (lit "{'id': 'a2', 'data': 'y'}, " ++ ToyJson.deep 2000))
      by (vm_compute; reflexivity).
    apply finditer_fragments.
  - vm_compute. reflexivity.
  - vm_compute. reflexivity.
  - vm_compute. reflexivity.
Qed.

(** C5, amended.  Every array interior has one list of fragments (each
    from an opening brace to the next closing brace, one character or more
    between them; leftmost first, without overlap); for an interior
    written as object literals with text that opens no brace between them,
    they are these literals.  When the parser fails on none of them with
    an error that is no decode error, the normalizer returns the records
    of the valid ones, in order: as many as there are valid fragments (N),
    the malformed ones (M, all the others) being dropped without an error.
    When the parser fails in that way on one of them, the error leaves the
    normalizer. *)
Theorem normalizer_keeps_valid_fragments {value : Type}
    (json_loads : pystr → Normalizer.loaded value) (is_dict : value → bool)
    (has_key : value → pystr → bool) (blob : pystr) :
  ∃ ms,
    Fragments.fragments_of blob ms
    ∧ (∀ ms', Fragments.fragments_of blob ms' → ms' = ms)
    ∧ (∀ items tail,
         Forall Fragments.item_ok items → Fragments.brace_free tail →
         blob = Fragments.interior items tail →
         ms = Fragments.literal <$> items)
    ∧ let out := Normalizer.normalize json_loads is_dict has_key blob in
      let N :=
        length (List.filter
                  (Fragments.is_valid json_loads is_dict has_key) ms) in
      let M :=
        length (List.filter
                  (Fragments.is_malformed json_loads is_dict has_key) ms) in
      ((∀ m, m ∈ ms →
          Fragments.is_fatal json_loads is_dict has_key m = false) →
       out = Ok (Fragments.records json_loads is_dict has_key ms)
       ∧ length (Fragments.records json_loads is_dict has_key ms) = N
       ∧ N + M = length ms)
      ∧ ((∃ m, m ∈ ms
               ∧ Fragments.is_fatal json_loads is_dict has_key m = true) →
         out = Err UncaughtException).
Proof.
  exists (Normalizer.finditer blob). split_and!.
  - apply finditer_fragments.
  - apply fragments_of_finditer.
  - intros items tail Hitems Htail ->. symmetry.
    by apply fragments_of_finditer, fragments_of_interior.
  - cbv zeta. unfold Normalizer.normalize. split.
    + intros Hms. split_and!.
      * by rewrite collect_no_fatal.
      * apply length_records.
      * by apply count_verdicts.
    + intros (m & Hin & Hm). by eapply collect_fatal.
Qed.

(** Of the three fragments of the example, the first is a record; the
    pair of empty braces and the brace left open are no fragments. *)
Example normalizer_example_output :
  Normalizer.finditer ToyJson.blob
  = [ lit "{'id': 'a1', 'data': 'x'}"; lit "{id: 7}"; lit "{'id': 'a2'}" ]
  ∧ Normalizer.normalize ToyJson.loads ToyJson.is_dict ToyJson.has_key
      ToyJson.blob
    = Ok [ "{"%char :: dquote :: lit "id" ++ dquote :: lit ": " ++ dquote
             :: lit "a1" ++ dquote :: lit ", " ++ dquote :: lit "data"
             ++ dquote :: lit ": " ++ dquote :: lit "x" ++ dquote
             :: lit "}" ].
Proof. split_and?; vm_compute; reflexivity. Qed.

(** ** Crop geometry *)

(** C9. The rectangle of a box starts at
    [margin + (box_c - 1) * bw * cell_size] and
    [margin + (box_r - 1) * bh * cell_size] and spans one block; that of a
    cell starts at [margin + (c - 1) * cell_size] and
    [margin + (r - 1) * cell_size] and spans one cell.  With blocks of 3 by
    3, cells of 60 and a margin of 40, the box at row 2, column 2 starts at
    (220, 220) and the cell at row 5, column 5 at (280, 280); padding and
    clamping come after. *)
Theorem crop_geometry (get_block_dims : Z → Z * Z)
    (size bw bh box_r box_c r c margin cell_size width height : Z) :
  get_block_dims size = (bw, bh) →
  Crop.box_rect get_block_dims size box_r box_c margin cell_size
    = ((margin + (box_c - 1) * bw * cell_size)%Z,
       (margin + (box_r - 1) * bh * cell_size)%Z,
       (margin + (box_c - 1) * bw * cell_size + bw * cell_size)%Z,
       (margin + (box_r - 1) * bh * cell_size + bh * cell_size)%Z)
  ∧ Crop.cell_rect r c margin cell_size
    = ((margin + (c - 1) * cell_size)%Z,
       (margin + (r - 1) * cell_size)%Z,
       (margin + (c - 1) * cell_size + cell_size)%Z,
       (margin + (r - 1) * cell_size + cell_size)%Z)
  ∧ (bw = 3%Z → bh = 3%Z →
     Crop.box_rect get_block_dims size 2 2 40 60
       = (220, 220, 400, 400)%Z)
  ∧ Crop.cell_rect 5 5 40 60 = (280, 280, 340, 340)%Z
  ∧ Crop.crop_box_image get_block_dims width height size box_r box_c
      margin cell_size
    = Crop.crop_area width height
        (Crop.box_rect get_block_dims size box_r box_c margin cell_size)
  ∧ Crop.crop_cell_image width height r c margin cell_size
    = Crop.crop_area width height (Crop.cell_rect r c margin cell_size).
Proof.
  intros Hdims. unfold Crop.box_rect, Crop.cell_rect. rewrite Hdims.
  split_and!; try done.
  - by intros -> ->.
  - unfold Crop.crop_box_image, Crop.box_rect. by rewrite Hdims.
Qed.

Lemma crop_geometry_9x9 :
  Crop.box_rect (λ _, (3, 3)%Z) 9 2 2 40 60 = (220, 220, 400, 400)%Z
  ∧ Crop.cell_rect 5 5 40 60 = (280, 280, 340, 340)%Z
  ∧ Crop.crop_box_image (λ _, (3, 3)%Z) 620 620 9 2 2 40 60
    = (214, 214, 406, 406)%Z.
Proof.
  pose proof (crop_geometry (λ _, (3, 3)%Z) 9 3 3 2 2 5 5 40 60 620 620
                eq_refl) as (_ & _ & Hbox & Hcell & _).
  split_and!; [by apply Hbox | exact Hcell | reflexivity].
Defined.

(** ** The corpus listing and the set of used identifiers *)

Lemma bind_Ok {A B} (a : A) (k : A → result B) : (Ok a ≫= k) = k a.
Proof. done. Qed.

Lemma elem_of_list_filter {A} (f : A → bool) (l : list A) x :
  x ∈ List.filter f l ↔ x ∈ l ∧ f x = true.
Proof. rewrite !list_elem_of_In. apply filter_In. Qed.

Lemma NoDup_list_filter {A} (f : A → bool) (l : list A) :
  NoDup l → NoDup (List.filter f l).
Proof. rewrite !NoDup_ListNoDup. apply List.NoDup_filter. Qed.

Lemma elem_of_list_puzzle_jsons dir name f :
  (name, f) ∈ Corpus.list_puzzle_jsons dir
  ↔ dir !! name = Some f ∧ endswith (lit ".json") name = true.
Proof.
  unfold Corpus.list_puzzle_jsons.
  rewrite merge_sort_Permutation, elem_of_list_filter.
  by rewrite elem_of_map_to_list.
Qed.

Lemma used_ids_of_spec files used0 used :
  Corpus.used_ids_of files used0 = Ok used →
  ∀ id, id ∈ used ↔
    id ∈ used0
    ∨ ∃ p d, p ∈ files ∧ Corpus.content p.2 = Corpus.Document d
             ∧ Corpus.picked_id d = Some id ∧ id ≠ [].
Proof.
  revert used0. induction files as [|p files IH]; simpl; intros used0.
  - intros [= <-] id. split; [by left|].
    intros [?|(p & d & Hp & _)]; [done|]. by apply elem_of_nil in Hp.
  - destruct (Corpus.content p.2) as [| |d] eqn:Hc; [|done|].
    + intros H id. rewrite (IH _ H id). split.
      * intros [?|(q & d & Hq & ?)]; [by left|].
        right. exists q, d. split; [by right | done].
      * intros [?|(q & d & Hq & Hd & ?)]; [by left|].
        apply elem_of_cons in Hq as [->|Hq]; [congruence|].
        right. by exists q, d.
    + destruct (Corpus.picked_id d) as [[|c pid]|] eqn:Hid.
      * intros H id. rewrite (IH _ H id). split.
        -- intros [?|(q & d' & Hq & ?)]; [by left|].
           right. exists q, d'. split; [by right | done].
        -- intros [?|(q & d' & Hq & Hd & Hpid & Hne)]; [by left|].
           apply elem_of_cons in Hq as [->|Hq]; [congruence|].
           right. by exists q, d'.
      * intros H id. rewrite (IH _ H id). split.
        -- intros [[->%elem_of_singleton|?]%elem_of_union|(q & d' & Hq & ?)].
           ++ right. exists p, d. split; [by left | done].
           ++ by left.
           ++ right. exists q, d'. split; [by right | done].
        -- intros [?|(q & d' & Hq & Hd & Hpid & Hne)].
           ++ left. apply elem_of_union. by right.
           ++ apply elem_of_cons in Hq as [->|Hq].
              ** left. assert (d' = d) as -> by congruence.
                 assert (id = c :: pid) as -> by congruence.
                 apply elem_of_union. left. by apply elem_of_singleton.
              ** right. by exists q, d'.
      * intros H id. rewrite (IH _ H id). split.
        -- intros [?|(q & d' & Hq & ?)]; [by left|].
           right. exists q, d'. split; [by right | done].
        -- intros [?|(q & d' & Hq & Hd & Hpid & Hne)]; [by left|].
           apply elem_of_cons in Hq as [->|Hq]; [congruence|].
           right. by exists q, d'.
Qed.

(** The set of used identifiers is that of the non-empty [picked.id] of
    the documents stored in the directory. *)
Lemma previously_used_spec dir used :
  Corpus._previously_used_puzzle_ids dir = Ok used →
  ∀ id, id ∈ used ↔
    ∃ name f d, dir !! name = Some f ∧ endswith (lit ".json") name = true
                ∧ Corpus.content f = Corpus.Document d
                ∧ Corpus.picked_id d = Some id ∧ id ≠ [].
Proof.
  intros H id. rewrite (used_ids_of_spec _ _ _ H id). split.
  - intros [Hin|([name f] & d & Hp & ?)]; [by apply not_elem_of_empty in Hin|].
    apply elem_of_list_puzzle_jsons in Hp as [? ?]. by exists name, f, d.
  - intros (name & f & d & ? & ? & ?). right. exists (name, f), d.
    split; [|done]. by apply elem_of_list_puzzle_jsons.
Qed.

(** ** Single pick *)

Lemma elem_of_enumerate {A} (l : list A) i x :
  (i, x) ∈ enumerate l ↔ l !! i = Some x.
Proof.
  unfold enumerate. rewrite elem_of_lookup_imap. split.
  - by intros (j & y & [= -> ->] & ?).
  - intros ?. by exists i, x.
Qed.

Lemma NoDup_enumerate {A} (l : list A) : NoDup (enumerate l).
Proof.
  apply NoDup_alt. intros i j [k x]. unfold enumerate.
  rewrite !list_lookup_imap.
  destruct (l !! i); destruct (l !! j); simpl; congruence.
Qed.

(** C10. On an empty batch the single pick fails with the
    no-puzzles-found error whatever selector it is given (an identifier
    fragment, valid or not, an index, a seed, or none), and returns no
    candidate. *)
Theorem pick_puzzle_empty_batch {rng entropy : Type}
    (seeded : pystr → rng) (unseeded : entropy → rng)
    (randrange : rng → nat → nat)
    (dir : Corpus.Directory) (e : entropy)
    (index : option Z) (puzzle_id seed : option pystr) :
  Picker.pick_puzzle seeded unseeded randrange dir e [] index puzzle_id seed
    = Err NoPuzzlesFound
  ∧ ∀ r, Picker.pick_puzzle seeded unseeded randrange dir e [] index
           puzzle_id seed ≠ Ok r.
Proof. done. Qed.

Section random_pick.
Context {rng entropy : Type}.
Variable seeded : pystr → rng.
Variable unseeded : entropy → rng.
Variable randrange : rng → nat → nat.

Lemma elem_of_fresh_of used puzzles i p :
  (i, p) ∈ Picker.fresh_of used puzzles
  ↔ puzzles !! i = Some p ∧ Picker.puzzle_id p ∉ used.
Proof.
  unfold Picker.fresh_of. rewrite elem_of_list_filter, elem_of_enumerate.
  simpl. by rewrite bool_decide_eq_true.
Qed.

(** The pool holds the candidates with an unused identifier, or every
    candidate when all identifiers are used. *)
Lemma elem_of_pool_of used puzzles i p :
  (i, p) ∈ Picker.pool_of used puzzles
  ↔ puzzles !! i = Some p
    ∧ (Picker.puzzle_id p ∉ used
       ∨ ∀ q, q ∈ puzzles → Picker.puzzle_id q ∈ used).
Proof.
  unfold Picker.pool_of.
  destruct (Picker.fresh_of used puzzles) as [|[j q] fresh] eqn:Hfresh.
  - rewrite elem_of_enumerate. split; [|by intros [? _]].
    intros Hp. split; [done|]. right. intros q [j Hq]%list_elem_of_lookup.
    destruct (decide (Picker.puzzle_id q ∈ used)) as [|Hn]; [done|].
    assert ((j, q) ∈ Picker.fresh_of used puzzles) as Hin
      by (by apply elem_of_fresh_of).
    rewrite Hfresh in Hin. by apply elem_of_nil in Hin.
  - rewrite <-Hfresh, elem_of_fresh_of. split; [by intros [? ?]; eauto|].
    intros [Hp [?|Hall]]; [done|].
    assert ((j, q) ∈ Picker.fresh_of used puzzles) as Hin
      by (rewrite Hfresh; by left).
    apply elem_of_fresh_of in Hin as [Hq Hn].
    destruct Hn. apply Hall. by eapply list_elem_of_lookup_2.
Qed.

Lemma NoDup_pool_of used puzzles : NoDup (Picker.pool_of used puzzles).
Proof.
  unfold Picker.pool_of.
  destruct (Picker.fresh_of used puzzles) eqn:Hfresh.
  - apply NoDup_enumerate.
  - rewrite <-Hfresh. apply NoDup_list_filter, NoDup_enumerate.
Qed.

Lemma pool_of_nonempty used puzzles :
  puzzles ≠ [] → 0 < length (Picker.pool_of used puzzles).
Proof.
  intros Hne. unfold Picker.pool_of.
  destruct (Picker.fresh_of used puzzles); simpl; [|lia].
  unfold enumerate. rewrite length_imap. destruct puzzles; simpl; [done|lia].
Qed.

End random_pick.

(** C7. The random single pick draws from the candidates whose identifier
    is not among the [picked.id] of the stored documents, or from the whole
    batch when there is no such candidate; it returns the pool entry at the
    position the generator draws below the size of the pool, each entry
    standing at one position; and with an explicit seed the result does not
    depend on anything but the batch, the corpus and the seed. *)
Theorem random_pick_prefers_unused {rng entropy : Type}
    (seeded : pystr → rng) (unseeded : entropy → rng)
    (randrange : rng → nat → nat)
    (dir : Corpus.Directory) (used : gset pystr)
    (puzzles : list Picker.Puzzle) (seed : option pystr) (e : entropy) :
  (∀ g n, 0 < n → randrange g n < n) →
  Corpus._previously_used_puzzle_ids dir = Ok used →
  puzzles ≠ [] →
  let pool := Picker.pool_of used puzzles in
  (∀ id, id ∈ used ↔
     ∃ name f d, dir !! name = Some f ∧ endswith (lit ".json") name = true
                 ∧ Corpus.content f = Corpus.Document d
                 ∧ Corpus.picked_id d = Some id ∧ id ≠ [])
  ∧ (∀ i p, (i, p) ∈ pool ↔
       puzzles !! i = Some p
       ∧ (Picker.puzzle_id p ∉ used
          ∨ ∀ q, q ∈ puzzles → Picker.puzzle_id q ∈ used))
  ∧ NoDup pool
  ∧ (∃ i p,
       Picker.pick_puzzle seeded unseeded randrange dir e puzzles
         None None seed = Ok (p, i)
       ∧ pool !! randrange (Picker.Random seeded unseeded seed e)
                   (length pool) = Some (i, p))
  ∧ (∀ s e',
       Picker.pick_puzzle seeded unseeded randrange dir e puzzles
         None None (Some s)
       = Picker.pick_puzzle seeded unseeded randrange dir e' puzzles
           None None (Some s)).
Proof.
  intros Hrange Hused Hne pool. split_and!.
  - by apply previously_used_spec.
  - apply elem_of_pool_of.
  - apply NoDup_pool_of.
  - pose proof (pool_of_nonempty used puzzles Hne) as Hlen.
    destruct (lookup_lt_is_Some_2 pool
                (randrange (Picker.Random seeded unseeded seed e)
                   (length pool))) as [[i p] Hip]; [by apply Hrange|].
    exists i, p. split; [|done].
    unfold Picker.pick_puzzle. destruct puzzles; [done|].
    rewrite Hused. simpl. fold pool. by rewrite Hip.
  - done.
Qed.

Lemma random_pick_prefers_unused_example :
  Picker.pick_puzzle Examples.seeded Examples.unseeded Examples.randrange
    Examples.dir1 0 Examples.batch None None (Some (lit "seed"))
  = Picker.pick_puzzle Examples.seeded Examples.unseeded Examples.randrange
      Examples.dir1 7 Examples.batch None None (Some (lit "seed")).
Proof.
  refine (proj2 (proj2 (proj2 (proj2
    (random_pick_prefers_unused Examples.seeded Examples.unseeded
       Examples.randrange Examples.dir1
       ({[ lit "324306f5-034d-4089-8723-56a8087fde14" ]} ∪ ∅)
       Examples.batch (Some (lit "seed")) 0 _ _ _)))) (lit "seed") 7).
  - intros g n Hn. by apply Nat.mod_upper_bound, Nat.neq_0_lt_0.
  - unfold Corpus._previously_used_puzzle_ids, Corpus.list_puzzle_jsons,
      Examples.dir1, Examples.stored, Corpus.write_puzzle_json.
    cbn [fst]. rewrite insert_empty, map_to_list_singleton. reflexivity.
  - discriminate.
Defined.

(** With one of three candidates stored, the pool is the other two. *)
Example random_pick_pool :
  Picker.pool_of {[ lit "324306f5-034d-4089-8723-56a8087fde14" ]}
    Examples.batch
  = [ (1, Examples.puzzle "324306f5-aaaa-4089-8723-000000000002");
      (2, Examples.puzzle "77777777-bbbb-4089-8723-000000000003") ].
Proof. split_and?; vm_compute; reflexivity. Qed.

(** ** File names *)

(** C4, as stated, fails: two different puzzles created in the same
    second get the same file name when their identifiers share the first
    segment, and the second write replaces the first document. *)
Lemma same_second_collision :
  Corpus.created_utc SameSecond.doc_a = Corpus.created_utc SameSecond.doc_b
  ∧ Corpus.picked_id SameSecond.doc_a
    = Some (lit "324306f5-034d-4089-8723-56a8087fde14")
  ∧ Corpus.picked_id SameSecond.doc_b
    = Some (lit "324306f5-ffff-4089-8723-000000000009")
  ∧ Corpus.path_of SameSecond.doc_a (lit "2026-01-02_000000Z")
    = Corpus.path_of SameSecond.doc_b (lit "2026-01-02_000000Z")
  ∧ Corpus.path_of SameSecond.doc_a (lit "2026-01-02_000000Z")
    = lit "2026-01-01_000001Z_easy9_9x9_324306f5.json"
  ∧ map (λ p, Corpus.content p.2)
      (Corpus.list_puzzle_jsons SameSecond.after_both)
    = [Corpus.Document SameSecond.doc_b].
Proof. split_and?; vm_compute; reflexivity. Qed.

(** C4, amended. The path a document is written to is the file name
    derived from its stamp, preset key, size and identifier; and for one
    stamp, preset key and size, two identifiers give the same file name
    exactly when their first hyphen-delimited segments are equal. *)
Theorem filename_collides_iff_same_short_id :
  (∀ dir doc now_stamp now,
     (Corpus.write_puzzle_json dir doc now_stamp now).2
     = Corpus.puzzle_json_filename
         (Corpus.stamp_of doc now_stamp)
         (default (lit "preset") (Corpus.preset_key doc))
         (default 0%Z (Corpus.size doc))
         (default (lit "unknown") (Corpus.picked_id doc))
     ∧ (Corpus.write_puzzle_json dir doc now_stamp now).1
         !! (Corpus.write_puzzle_json dir doc now_stamp now).2
       = Some {| Corpus.mtime := now; Corpus.content := Corpus.Document doc |})
  ∧ (∀ stamp preset_key size id1 id2,
       Corpus.puzzle_json_filename stamp preset_key size id1
       = Corpus.puzzle_json_filename stamp preset_key size id2
       ↔ first_segment id1 = first_segment id2).
Proof.
  split.
  - intros dir doc now_stamp now. split; [done|].
    unfold Corpus.write_puzzle_json. simpl. apply lookup_insert_eq.
  - intros stamp preset_key size id1 id2. unfold Corpus.puzzle_json_filename.
    split; [|by intros ->].
    intros H. do 8 apply app_inv_head in H. by apply app_inv_tail in H.
Qed.

(** ** Resolution by identifier *)

#[local] Instance older_trans : Transitive Corpus.older.
Proof. intros a b c. unfold Corpus.older. lia. Qed.

#[local] Instance older_total : Total Corpus.older.
Proof. intros a b. unfold Corpus.older. lia. Qed.

Lemma StronglySorted_list_filter {A} (R : relation A) (f : A → bool) l :
  StronglySorted R l → StronglySorted R (List.filter f l).
Proof.
  induction 1 as [|x l Hl IH Hx]; simpl; [constructor|].
  destruct (f x); [|done]. constructor; [done|].
  apply Forall_forall. intros y [Hy _]%elem_of_list_filter.
  by eapply Forall_forall in Hx.
Qed.

Lemma sorted_last_greatest {A} (R : relation A) `{!Reflexive R} l p :
  StronglySorted R l → last l = Some p → ∀ q, q ∈ l → R q p.
Proof.
  intros Hs [l' ->]%last_Some q Hq.
  apply elem_of_app in Hq as [Hq|Hq];
    [|by apply list_elem_of_singleton in Hq as ->].
  eapply StronglySorted_app_1_elem_of; [done.. | by left].
Qed.

#[local] Instance older_refl : Reflexive Corpus.older.
Proof. intros a. unfold Corpus.older. lia. Qed.

Lemma list_puzzle_jsons_sorted dir :
  StronglySorted Corpus.older (Corpus.list_puzzle_jsons dir).
Proof. apply StronglySorted_merge_sort; apply _. Qed.

(** The match the short-id path returns is the newest of the files whose
    name ends with the short id. *)
Lemma newest_match dir sid p :
  last (List.filter (Corpus.name_matches sid) (Corpus.list_puzzle_jsons dir))
    = Some p →
  dir !! p.1 = Some p.2
  ∧ Corpus.name_matches sid p = true
  ∧ ∀ name f, dir !! name = Some f → endswith (lit ".json") name = true →
      Corpus.name_matches sid (name, f) = true →
      (Corpus.mtime f ≤ Corpus.mtime p.2)%Z.
Proof.
  intros Hlast.
  assert (p ∈ List.filter (Corpus.name_matches sid)
                (Corpus.list_puzzle_jsons dir)) as Hp.
  { apply last_Some in Hlast as [l' ->]. apply elem_of_app. right. by left. }
  apply elem_of_list_filter in Hp as [Hp Hm]. destruct p as [pn pf].
  apply elem_of_list_puzzle_jsons in Hp as [Hp _]. split_and!; [done..|].
  intros name f Hf Hjson Hname.
  eapply (sorted_last_greatest Corpus.older _ _
            (StronglySorted_list_filter _ _ _ (list_puzzle_jsons_sorted dir))
            Hlast (name, f)).
  apply elem_of_list_filter. split; [|done].
  by apply elem_of_list_puzzle_jsons.
Qed.

(** C2, as stated, fails: with three stored documents of different
    identifiers behind one short id, resolution by that short id returns
    the newest of them and raises nothing. *)
Lemma short_id_resolves_among_three :
  map (λ p, match Corpus.content p.2 with
            | Corpus.Document d => Corpus.picked_id d
            | _ => None
            end)
    (List.filter (Corpus.name_matches (lit "324306f5"))
       (Corpus.list_puzzle_jsons Examples.dir3))
  = [ Some (lit "324306f5-034d-4089-8723-56a8087fde14");
      Some (lit "324306f5-aaaa-4089-8723-000000000002");
      Some (lit "324306f5-bbbb-4089-8723-000000000003") ]
  ∧ Corpus.find_puzzle_json_by_id Examples.dir3 (lit "324306f5")
    = Ok (lit "2026-01-01_000003Z_easy9_9x9_324306f5.json")
  ∧ Corpus.find_puzzle_json_by_short_id Examples.dir3 (lit "324306f5")
    = Ok (lit "2026-01-01_000003Z_easy9_9x9_324306f5.json").
Proof. split_and?; vm_compute; reflexivity. Qed.

(** C2, amended. Resolution by a short id (an identifier with no hyphen)
    that the names of stored files end with returns the most recently
    modified of those files, however many different identifiers they
    hold, and no ambiguity error.  The ambiguity error belongs to the
    single pick from a fetched batch: an identifier fragment that three
    candidates contain fails there, listing the three. *)
Theorem short_id_returns_newest_match
    (dir : Corpus.Directory) (puzzle_id normalized : pystr)
    (p : pystr * Corpus.File) :
  Corpus._normalize_id_fragment puzzle_id = Ok normalized →
  contains (lit "-") normalized = false →
  last (List.filter
          (Corpus.name_matches (lower (first_segment normalized)))
          (Corpus.list_puzzle_jsons dir)) = Some p →
  Corpus.find_puzzle_json_by_id dir puzzle_id = Ok p.1
  ∧ Corpus.find_puzzle_json_by_short_id dir puzzle_id = Ok p.1
  ∧ dir !! p.1 = Some p.2
  ∧ (∀ name f,
       dir !! name = Some f → endswith (lit ".json") name = true →
       Corpus.name_matches (lower (first_segment normalized)) (name, f)
         = true →
       (Corpus.mtime f ≤ Corpus.mtime p.2)%Z)
  ∧ (∀ (rng entropy : Type) (seeded : pystr → rng)
       (unseeded : entropy → rng) (randrange : rng → nat → nat)
       (e : entropy) (batch : list Picker.Puzzle) (index : option Z)
       (seed : option pystr) a b c,
       Picker.fragment_matches (lower normalized) batch = [a; b; c] →
       Picker.pick_puzzle seeded unseeded randrange dir e batch index
         (Some puzzle_id) seed
       = Err (AmbiguousIdentifier 3
                [Picker.puzzle_id a.2; Picker.puzzle_id b.2;
                 Picker.puzzle_id c.2] 0)).
Proof.
  intros Hnorm Hshort Hlast.
  destruct (newest_match _ _ _ Hlast) as (Hp & _ & Hnewest).
  split_and!; [| |done|done|].
  - unfold Corpus.find_puzzle_json_by_id. rewrite Hnorm, bind_Ok.
    cbv zeta. rewrite Hshort. cbn [negb].
    destruct (List.filter _ _) as [|x l]; [done|]. by rewrite Hlast.
  - unfold Corpus.find_puzzle_json_by_short_id. rewrite Hnorm, bind_Ok.
    cbv zeta. by rewrite Hlast.
  - intros rng entropy seeded unseeded randrange e batch index seed a b c Hm.
    unfold Picker.pick_puzzle. destruct batch as [|x batch]; [done|].
    rewrite Hnorm, bind_Ok. cbv zeta. rewrite Hm. by destruct a, b, c.
Qed.

Lemma short_id_returns_newest_match_example :
  Corpus.find_puzzle_json_by_id Examples.dir3 (lit "324306f5")
    = Ok (lit "2026-01-01_000003Z_easy9_9x9_324306f5.json")
  ∧ Examples.dir3 !! lit "2026-01-01_000003Z_easy9_9x9_324306f5.json"
    = Some {| Corpus.mtime := 3;
              Corpus.content := Corpus.Document Examples.doc3 |}.
Proof.
  destruct (short_id_returns_newest_match Examples.dir3 (lit "324306f5")
              (lit "324306f5")
              (lit "2026-01-01_000003Z_easy9_9x9_324306f5.json",
               {| Corpus.mtime := 3;
                  Corpus.content := Corpus.Document Examples.doc3 |}))
    as (H1 & _ & H3 & _); [vm_compute; reflexivity..|].
  exact (conj H1 H3).
Defined.

(** *** Valid identifiers are kept as they are *)

Lemma is_id_char_not_space c : Corpus.is_id_char c = true → is_space c = false.
Proof. by destruct c as [[] [] [] [] [] [] [] []]. Qed.

Lemma is_id_char_not_space2 a b :
  Corpus.is_id_char a = true → is_space2 a b = false.
Proof. by destruct a as [[] [] [] [] [] [] [] []]. Qed.

Lemma is_id_char_not_space3 a b c :
  Corpus.is_id_char a = true → is_space3 a b c = false.
Proof. by destruct a as [[] [] [] [] [] [] [] []]. Qed.

Lemma lstrip_id_chars s :
  forallb Corpus.is_id_char s = true → lstrip s = s.
Proof.
  destruct s as [|a [|b [|c s]]]; simpl; [done|..];
    intros [Ha _]%andb_true_iff;
    by rewrite ?(is_id_char_not_space a Ha), ?(is_id_char_not_space2 a _ Ha),
         ?(is_id_char_not_space3 a _ _ Ha).
Qed.

Lemma rstrip_reversed_id_chars s :
  forallb Corpus.is_id_char s = true → rstrip_reversed s = s.
Proof.
  destruct s as [|c [|b [|a s]]]; simpl; [done|..].
  - intros [Hc _]%andb_true_iff. by rewrite (is_id_char_not_space c Hc).
  - intros [Hc [Hb _]%andb_true_iff]%andb_true_iff.
    by rewrite (is_id_char_not_space c Hc), (is_id_char_not_space2 b c Hb).
  - intros [Hc [Hb [Ha _]%andb_true_iff]%andb_true_iff]%andb_true_iff.
    by rewrite (is_id_char_not_space c Hc), (is_id_char_not_space2 b c Hb),
         (is_id_char_not_space3 a b c Ha).
Qed.

Lemma forallb_rev {A} (f : A → bool) l :
  forallb f (rev l) = forallb f l.
Proof.
  apply eq_true_iff_eq. rewrite !forallb_forall.
  split; intros H x Hx; apply H; by apply in_rev in Hx || apply in_rev.
Qed.

Lemma strip_id_chars s : forallb Corpus.is_id_char s = true → strip s = s.
Proof.
  intros Hs. unfold strip, rstrip. rewrite (lstrip_id_chars s Hs).
  rewrite rstrip_reversed_id_chars by (by rewrite forallb_rev).
  apply rev_involutive.
Qed.

Lemma normalize_valid_id s :
  s ≠ [] → forallb Corpus.is_id_char s = true → length s ≤ 64 →
  Corpus._normalize_id_fragment s = Ok s.
Proof.
  intros Hne Hs Hlen. unfold Corpus._normalize_id_fragment.
  rewrite (strip_id_chars s Hs). destruct s as [|c s]; [done|].
  rewrite Hs. by rewrite (proj2 (Nat.leb_le _ _) Hlen).
Qed.

(** White space around an identifier is dropped, that of Unicode
    included: here U+00A0 before it and U+2003 after it. *)
Example normalize_id_unicode_space :
  Corpus._normalize_id_fragment
    (map ascii_of_nat [194; 160] ++ lit " 324306f5"
       ++ map ascii_of_nat [226; 128; 131])
  = Ok (lit "324306f5").
Proof. vm_compute. reflexivity. Qed.

(** *** The file a document was written to is found by its name *)

Lemma endswith_app suffix pre : endswith suffix (pre ++ suffix) = true.
Proof.
  unfold endswith. rewrite rev_app_distr. apply startswith_spec. eauto.
Qed.

Lemma lower_app a b : lower (a ++ b) = lower a ++ lower b.
Proof. apply map_app. Qed.

Lemma filename_ends_with_json stamp preset_key size id :
  endswith (lit ".json")
    (Corpus.puzzle_json_filename stamp preset_key size id) = true.
Proof.
  unfold Corpus.puzzle_json_filename. rewrite !app_assoc. apply endswith_app.
Qed.

Lemma filename_matches_short_id stamp preset_key size id f :
  Corpus.name_matches (lower (first_segment id))
    (Corpus.puzzle_json_filename stamp preset_key size id, f) = true.
Proof.
  unfold Corpus.name_matches, Corpus.suffix_of, Corpus.puzzle_json_filename.
  cbn [fst].
  replace (stamp ++ lit "_" ++ preset_key ++ lit "_" ++ str_of_Z size
             ++ lit "x" ++ str_of_Z size ++ lit "_" ++ first_segment id
             ++ lit ".json")
    with ((stamp ++ lit "_" ++ preset_key ++ lit "_" ++ str_of_Z size
             ++ lit "x" ++ str_of_Z size)
            ++ (lit "_" ++ first_segment id ++ lit ".json"))
    by (by rewrite <-!app_assoc).
  rewrite lower_app, (lower_app (lit "_")), (lower_app (first_segment id)).
  apply endswith_app.
Qed.

(** A file newer than all the others is the last of the listing. *)
Lemma last_after_write (dir : Corpus.Directory) path f :
  map_Forall (λ _ g, (Corpus.mtime g < Corpus.mtime f)%Z) dir →
  endswith (lit ".json") path = true →
  last (Corpus.list_puzzle_jsons (<[path := f]> dir)) = Some (path, f).
Proof.
  intros Hold Hjson.
  assert ((path, f) ∈ Corpus.list_puzzle_jsons (<[path := f]> dir)) as Hin.
  { apply elem_of_list_puzzle_jsons. by rewrite lookup_insert_eq. }
  destruct (last (Corpus.list_puzzle_jsons (<[path := f]> dir)))
    as [[yn yf]|] eqn:Hlast.
  - pose proof (sorted_last_greatest Corpus.older _ _
                  (list_puzzle_jsons_sorted _) Hlast _ Hin) as Hle.
    unfold Corpus.older in Hle. simpl in Hle.
    assert ((yn, yf) ∈ Corpus.list_puzzle_jsons (<[path := f]> dir)) as Hy.
    { apply last_Some in Hlast as [l' ->]. apply elem_of_app. right. by left. }
    apply elem_of_list_puzzle_jsons in Hy as [Hy _].
    destruct (decide (path = yn)) as [<-|Hne].
    + rewrite lookup_insert_eq in Hy. by injection Hy as <-.
    + rewrite lookup_insert_ne in Hy by done.
      apply Hold in Hy. simpl in Hy. lia.
  - apply last_None in Hlast. rewrite Hlast in Hin.
    by apply elem_of_nil in Hin.
Qed.

Lemma lower_chr_hyphen c : chr_eq (lower_chr c) "-" = chr_eq c "-".
Proof. by destruct c as [[] [] [] [] [] [] [] []]. Qed.

Lemma first_segment_lower s : first_segment (lower s) = lower (first_segment s).
Proof.
  induction s as [|c s IH]; simpl; [done|].
  rewrite lower_chr_hyphen. destruct (chr_eq c "-"); simpl; [done|].
  by rewrite IH.
Qed.

Lemma find_none_iff {A} (f : A → bool) l :
  List.find f l = None ↔ ∀ x, x ∈ l → f x = false.
Proof.
  induction l as [|y l IH]; simpl.
  - split; [|done]. intros _ x Hx. by apply elem_of_nil in Hx.
  - destruct (f y) eqn:Hy.
    + split; [done|]. intros H. specialize (H y (list_elem_of_here _ _)).
      congruence.
    + rewrite IH. split.
      * intros H x [->|Hx]%elem_of_cons; [done | by apply H].
      * intros H x Hx. apply H. by right.
Qed.

Lemma elem_of_List_rev {A} (l : list A) x : x ∈ rev l ↔ x ∈ l.
Proof. rewrite !list_elem_of_In. symmetry. apply in_rev. Qed.

(** Searching a sorted list from its end finds the greatest of the
    elements that pass. *)
Lemma find_rev_sorted {A} (R : relation A) (f : A → bool) l p :
  StronglySorted R l → List.find f (rev l) = Some p →
  p ∈ l ∧ f p = true ∧ ∀ q, q ∈ l → f q = true → q = p ∨ R q p.
Proof.
  induction l as [|x l IH] using rev_ind; [done|].
  intros Hs. rewrite rev_app_distr. simpl.
  destruct (f x) eqn:Hx.
  - intros [= <-]. split_and!; [apply elem_of_app; right; by left | done |].
    intros q [Hq|Hq%list_elem_of_singleton]%elem_of_app Hfq; [|by left].
    right. eapply StronglySorted_app_1_elem_of; [done.. | by left].
  - intros Hfind. apply StronglySorted_app_1_l in Hs.
    destruct (IH Hs Hfind) as (Hp & Hfp & Hmax).
    split_and!; [apply elem_of_app; by left | done |].
    intros q [Hq|Hq%list_elem_of_singleton]%elem_of_app Hfq;
      [by apply Hmax | congruence].
Qed.

Lemma id_matches_spec normalized name f :
  Corpus.id_matches normalized (name, f) = true
  ↔ ∃ d, Corpus.content f = Corpus.Document d
         ∧ lower (default [] (Corpus.picked_id d)) = lower normalized.
Proof.
  unfold Corpus.id_matches. simpl.
  destruct (Corpus.content f) as [| |d].
  - split; [done | by intros (d & ? & _)].
  - split; [done | by intros (d & ? & _)].
  - rewrite bool_decide_eq_true. split; [by exists d|].
    by intros (d' & [= <-] & ?).
Qed.

(** Resolution by an identifier that holds a hyphen: what is returned
    holds the identifier; a file whose name ends with the short id is
    preferred, and among the files it is chosen from none was modified
    later; nothing is returned only when no file holds the identifier. *)
Lemma find_by_full_id_spec (dir : Corpus.Directory) (query normalized : pystr) :
  Corpus._normalize_id_fragment query = Ok normalized →
  contains (lit "-") normalized = true →
  let sid := lower (first_segment normalized) in
  let holds name f :=
    dir !! name = Some f ∧ endswith (lit ".json") name = true
    ∧ ∃ d, Corpus.content f = Corpus.Document d
           ∧ lower (default [] (Corpus.picked_id d)) = lower normalized in
  (Corpus.find_puzzle_json_by_id dir query = Err (IdNotStored query)
   ↔ ∀ name f, ¬ holds name f)
  ∧ (∀ e, Corpus.find_puzzle_json_by_id dir query = Err e →
          e = IdNotStored query)
  ∧ (∀ name, Corpus.find_puzzle_json_by_id dir query = Ok name →
       ∃ f, holds name f
            ∧ ∀ name' f', holds name' f' →
                (Corpus.name_matches sid (name', f') = true →
                 Corpus.name_matches sid (name, f) = true)
                ∧ (Corpus.name_matches sid (name', f')
                     = Corpus.name_matches sid (name, f) →
                   (Corpus.mtime f' ≤ Corpus.mtime f)%Z)).
Proof.
  intros Hnorm Hfull sid holds.
  assert (∀ name f, holds name f ↔
            (name, f) ∈ Corpus.list_puzzle_jsons dir
            ∧ Corpus.id_matches normalized (name, f) = true) as Hholds.
  { intros name f. unfold holds.
    rewrite elem_of_list_puzzle_jsons, id_matches_spec. tauto. }
  unfold Corpus.find_puzzle_json_by_id. rewrite Hnorm, bind_Ok. cbv zeta.
  rewrite Hfull. cbn [negb]. fold sid.
  set (files := Corpus.list_puzzle_jsons dir) in *.
  set (candidates := List.filter (Corpus.name_matches sid) files).
  pose proof (list_puzzle_jsons_sorted dir) as Hsorted. fold files in Hsorted.
  assert (StronglySorted Corpus.older candidates) as Hsorted'
    by (by apply StronglySorted_list_filter).
  assert (match candidates with
          | [] => None
          | _ :: _ => List.find (Corpus.id_matches normalized) (rev candidates)
          end = List.find (Corpus.id_matches normalized) (rev candidates))
    as -> by (by destruct candidates).
  destruct (List.find _ (rev candidates)) as [[pn pf]|] eqn:Hfast.
  - apply find_rev_sorted with (R := Corpus.older) in Hfast
      as (Hin & Hid & Hmax); [|done].
    apply elem_of_list_filter in Hin as [Hin Hname].
    split_and!; [split; [done|] | done |].
    + intros Hnone. destruct (Hnone pn pf). by apply Hholds.
    + intros name [= <-]. exists pf. split; [by apply Hholds|].
      intros name' f' [Hin' Hid']%Hholds. split; [done|].
      rewrite Hname. intros Hname'.
      destruct (Hmax (name', f')) as [[= -> ->]|Hle]; [|done|lia|done].
      by apply elem_of_list_filter.
  - assert (∀ name f, holds name f →
              Corpus.name_matches sid (name, f) = false) as Hnofast.
    { intros name f [Hin Hid]%Hholds.
      destruct (Corpus.name_matches sid (name, f)) eqn:Hname; [|done].
      rewrite find_none_iff in Hfast.
      rewrite (Hfast (name, f)) in Hid; [done|].
      apply elem_of_List_rev, elem_of_list_filter. done. }
    destruct (List.find _ (rev files)) as [[pn pf]|] eqn:Hslow.
    + apply find_rev_sorted with (R := Corpus.older) in Hslow
        as (Hin & Hid & Hmax); [|done].
      split_and!; [split; [done|] | done |].
      * intros Hnone. destruct (Hnone pn pf). by apply Hholds.
      * intros name [= <-].
        assert (holds pn pf) as Hp by (by apply Hholds).
        exists pf. split; [done|].
        intros name' f' Hh'. rewrite (Hnofast _ _ Hh'), (Hnofast _ _ Hp).
        split; [done|]. intros _. apply Hholds in Hh' as [Hin' Hid'].
        destruct (Hmax (name', f')) as [[= -> ->]|Hle]; [done..|lia|done].
    + split_and!; [|by intros e [= <-]|done].
      split; [|done]. intros _ name f [Hin Hid]%Hholds.
      rewrite find_none_iff in Hslow.
      rewrite (Hslow (name, f)) in Hid; [done|]. by apply elem_of_List_rev.
Qed.

(** C1. Once a document is written, resolution by its identifier (a full
    one: 1 to 64 hex digits and hyphens, one hyphen at least), in whatever
    letter case, returns for every state of the corpus a file that holds a
    document of that identifier, whose name ends with the short id and
    which is no older than the file written; it is the file written, and
    so the document written, as soon as the other files of that short id
    that hold the same identifier are older, whatever files of other
    identifiers the corpus holds, same short id and later modification
    included.  For every directory and every full identifier, resolution
    fails exactly when no stored document has the identifier in its
    [picked.id], letter case apart; the file it returns has, its name ends
    with the short id if that of any such file does (the fast path), and
    no file it was chosen among was modified later (most recent first, in
    the fast path and in the slow one). *)
Theorem write_then_resolve
    (dir : Corpus.Directory) (doc : Corpus.PuzzleDocument)
    (id now_stamp : pystr) (now : Z) :
  Corpus.picked_id doc = Some id →
  let written := Corpus.write_puzzle_json dir doc now_stamp now in
  let holds (d : Corpus.Directory) (wanted name : pystr) (f : Corpus.File) :=
    d !! name = Some f ∧ endswith (lit ".json") name = true
    ∧ ∃ doc', Corpus.content f = Corpus.Document doc'
              ∧ lower (default [] (Corpus.picked_id doc')) = lower wanted in
  let short_named (wanted name : pystr) :=
    endswith (lit "_" ++ lower (first_segment wanted) ++ lit ".json")
      (lower name) in
  written.1 !! written.2
    = Some {| Corpus.mtime := now; Corpus.content := Corpus.Document doc |}
  ∧ (∀ query,
       query ≠ [] → forallb Corpus.is_id_char query = true →
       length query ≤ 64 → contains (lit "-") query = true →
       lower query = lower id →
       (∃ name f,
          Corpus.find_puzzle_json_by_id written.1 query = Ok name
          ∧ holds written.1 id name f ∧ short_named id name = true
          ∧ (now ≤ Corpus.mtime f)%Z)
       ∧ ((∀ name' f', holds dir id name' f' → short_named id name' = true →
             name' ≠ written.2 → (Corpus.mtime f' < now)%Z) →
          Corpus.find_puzzle_json_by_id written.1 query = Ok written.2))
  ∧ (∀ query,
       query ≠ [] → forallb Corpus.is_id_char query = true →
       length query ≤ 64 → lower query = lower id →
       map_Forall (λ _ f, (Corpus.mtime f < now)%Z) dir →
       Corpus.find_puzzle_json_by_id written.1 query = Ok written.2)
  ∧ (∀ (dir0 : Corpus.Directory) (query0 normalized : pystr),
       Corpus._normalize_id_fragment query0 = Ok normalized →
       contains (lit "-") normalized = true →
       (Corpus.find_puzzle_json_by_id dir0 query0 = Err (IdNotStored query0)
        ↔ ∀ name f, ¬ holds dir0 normalized name f)
       ∧ (∀ e, Corpus.find_puzzle_json_by_id dir0 query0 = Err e →
               e = IdNotStored query0)
       ∧ (∀ name, Corpus.find_puzzle_json_by_id dir0 query0 = Ok name →
            ∃ f, holds dir0 normalized name f
                 ∧ ∀ name' f', holds dir0 normalized name' f' →
                     (short_named normalized name' = true →
                      short_named normalized name = true)
                     ∧ (short_named normalized name'
                          = short_named normalized name →
                        (Corpus.mtime f' ≤ Corpus.mtime f)%Z))).
Proof.
  intros Hid written holds short_named.
  set (path := Corpus.path_of doc now_stamp).
  set (wf := {| Corpus.mtime := now; Corpus.content := Corpus.Document doc |}).
  assert (written = (<[path := wf]> dir, path)) as Hwritten by done.
  assert (written.1 !! written.2 = Some wf) as Hlookup
    by (rewrite Hwritten; apply lookup_insert_eq).
  assert (endswith (lit ".json") path = true) as Hjson
    by apply filename_ends_with_json.
  assert (short_named id path = true) as Hshort.
  { unfold short_named, path, Corpus.path_of. rewrite Hid. cbn [default].
    apply (filename_matches_short_id _ _ _ id wf). }
  assert (holds written.1 id path wf) as Hwf.
  { split_and!; [done | done |]. exists doc. split; [done|].
    by rewrite Hid. }
  assert (∀ dir0 query0 normalized,
            Corpus._normalize_id_fragment query0 = Ok normalized →
            contains (lit "-") normalized = true →
            (Corpus.find_puzzle_json_by_id dir0 query0
               = Err (IdNotStored query0)
             ↔ ∀ name f, ¬ holds dir0 normalized name f)
            ∧ (∀ e, Corpus.find_puzzle_json_by_id dir0 query0 = Err e →
                    e = IdNotStored query0)
            ∧ (∀ name, Corpus.find_puzzle_json_by_id dir0 query0 = Ok name →
                 ∃ f, holds dir0 normalized name f
                      ∧ ∀ name' f', holds dir0 normalized name' f' →
                          (short_named normalized name' = true →
                           short_named normalized name = true)
                          ∧ (short_named normalized name'
                               = short_named normalized name →
                             (Corpus.mtime f' ≤ Corpus.mtime f)%Z)))
    as Hgeneral.
  { intros dir0 query0 normalized Hnorm Hfull.
    exact (find_by_full_id_spec dir0 query0 normalized Hnorm Hfull). }
  split_and!; [done | | | done].
  - intros query Hne Hchars Hlen Hfull Hcase.
    pose proof (normalize_valid_id query Hne Hchars Hlen) as Hnorm.
    destruct (Hgeneral written.1 query query Hnorm Hfull)
      as (Hnone & Herr & Hsome).
    assert (∀ name f, holds written.1 query name f ↔ holds written.1 id name f)
      as Hsame by (intros; unfold holds; by rewrite Hcase).
    assert (∀ name, short_named query name = short_named id name) as Hsame'.
    { intros name. unfold short_named.
      by rewrite <-!first_segment_lower, Hcase. }
    destruct (Corpus.find_puzzle_json_by_id written.1 query)
      as [name|e] eqn:Hfind.
    + destruct (Hsome name eq_refl) as (f & Hf & Hbest).
      destruct (Hbest path wf (proj2 (Hsame _ _) Hwf)) as [Hpref Hnew].
      rewrite !Hsame' in Hpref, Hnew. specialize (Hpref Hshort).
      rewrite Hshort, Hpref in Hnew. specialize (Hnew eq_refl).
      apply Hsame in Hf. split.
      * exists name, f. by split_and!.
      * intros Hold. f_equal.
        destruct (decide (name = path)) as [->|Hother]; [done|].
        destruct Hf as (Hf & Hjf & Hdf).
        rewrite Hwritten in Hf. cbn [fst] in Hf.
        rewrite lookup_insert_ne in Hf by done.
        specialize (Hold name f (conj Hf (conj Hjf Hdf)) Hpref Hother).
        simpl in Hnew. lia.
    + pose proof (Herr e eq_refl) as ->.
      destruct (proj1 Hnone eq_refl path wf). by apply Hsame.
  - intros query Hne Hchars Hlen Hcase Hold.
    rewrite Hwritten. cbn [fst snd].
    assert (last (Corpus.list_puzzle_jsons (<[path := wf]> dir))
            = Some (path, wf)) as Hlast by (by apply last_after_write).
    apply last_Some in Hlast as [older Hfiles].
    assert (Corpus.name_matches (lower (first_segment query)) (path, wf)
            = true) as Hname.
    { rewrite <-first_segment_lower, Hcase, first_segment_lower.
      exact Hshort. }
    assert (Corpus.id_matches query (path, wf) = true) as Hmatch.
    { unfold Corpus.id_matches. cbn. rewrite Hid. cbn.
      by apply bool_decide_eq_true. }
    unfold Corpus.find_puzzle_json_by_id.
    rewrite (normalize_valid_id query Hne Hchars Hlen), bind_Ok. cbv zeta.
    rewrite Hfiles, List.filter_app. cbn [List.filter]. rewrite Hname.
    destruct (List.filter _ older ++ [(path, wf)]) as [|x l] eqn:Hcands.
    { by destruct (List.filter _ older). }
    rewrite <-Hcands. clear x l Hcands.
    destruct (negb (contains (lit "-") query)).
    + by rewrite last_snoc.
    + rewrite rev_app_distr. cbn [rev app List.find]. by rewrite Hmatch.
Qed.

(** Two documents of other identifiers behind the same short id, both
    modified later than the document written: resolution by the
    identifier written in capitals returns the file written, the oldest
    of the three. *)
Lemma write_then_resolve_example :
  Corpus.find_puzzle_json_by_id
    (Corpus.write_puzzle_json Examples.dir23 Examples.doc1
       (lit "2026-01-02_000000Z") 1).1
    (lit "324306F5-034D-4089-8723-56A8087FDE14")
  = Ok (lit "2026-01-01_000001Z_easy9_9x9_324306f5.json")
  ∧ map (λ p, p.1)
      (Corpus.list_puzzle_jsons
         (Corpus.write_puzzle_json Examples.dir23 Examples.doc1
            (lit "2026-01-02_000000Z") 1).1)
    = [ lit "2026-01-01_000001Z_easy9_9x9_324306f5.json";
        lit "2026-01-01_000002Z_easy9_9x9_324306f5.json";
        lit "2026-01-01_000003Z_easy9_9x9_324306f5.json" ].
Proof.
  split; [|vm_compute; reflexivity].
  refine (proj2 (proj1 (proj2
    (write_then_resolve Examples.dir23 Examples.doc1
       (lit "324306f5-034d-4089-8723-56a8087fde14")
       (lit "2026-01-02_000000Z") 1 eq_refl))
    (lit "324306F5-034D-4089-8723-56A8087FDE14") _ eq_refl _ eq_refl
    eq_refl) _).
  - discriminate.
  - vm_compute. repeat constructor.
  - intros name' f' (Hf & _ & doc' & Hdoc & Hsame) _ _.
    unfold Examples.dir23, Examples.stored, Corpus.write_puzzle_json in Hf.
    cbn [fst] in Hf.
    apply lookup_insert_Some in Hf as [[_ <-]|[_ Hf]].
    { injection Hdoc as <-. vm_compute in Hsame. discriminate Hsame. }
    apply lookup_insert_Some in Hf as [[_ <-]|[_ Hf]].
    { injection Hdoc as <-. vm_compute in Hsame. discriminate Hsame. }
    by rewrite lookup_empty in Hf.
Defined.

(** ** The batch loop *)

Section batch_loop.
Context {grng : Type}.
Variable shuffle : grng → list Picker.Selected → list Picker.Selected * grng.
Variable fetch : nat → list Picker.Puzzle.
Variable count : nat.
Variable used : gset pystr.

Hypothesis shuffle_perm : ∀ g l, (shuffle g l).1 ≡ₚ l.

Local Abbreviation body := (Picker.loop_body shuffle fetch count used).
Local Abbreviation budget := (Picker.max_attempts_of count).

Lemma map_fmap {A B} (f : A → B) l : map f l = f <$> l.
Proof. induction l as [|x l IH]; simpl; [done | by rewrite IH]. Qed.

Lemma sublist_list_filter {A} (f : A → bool) l :
  List.filter f l `sublist_of` l.
Proof.
  induction l as [|x l IH]; simpl; [done|].
  destruct (f x); by constructor.
Qed.

Lemma elem_of_fresh_items seen puzzles it :
  it ∈ Picker.fresh_items used seen puzzles ↔
    puzzles !! (it.1.2) = Some (it.1.1) ∧ it.2 = length puzzles
    ∧ (Picker.selected_id it ∉ used) ∧ (Picker.selected_id it ∉ seen).
Proof.
  unfold Picker.fresh_items.
  rewrite elem_of_list_filter, elem_of_lookup_imap, andb_true_iff,
    !bool_decide_eq_true.
  destruct it as [[p i] t]. simpl. split.
  - intros [(j & q & [= -> -> ->] & Hq) [? ?]]. done.
  - intros (Hp & -> & ? & ?). split; [|done]. by exists i, p.
Qed.

Lemma ids_fresh_items_sublist seen puzzles :
  Picker.selected_id <$> Picker.fresh_items used seen puzzles
  `sublist_of` Picker.puzzle_id <$> puzzles.
Proof.
  unfold Picker.fresh_items.
  etrans; [apply fmap_sublist, sublist_list_filter|].
  rewrite fmap_imap. simpl.
  replace (imap _ puzzles) with (Picker.puzzle_id <$> puzzles); [done|].
  generalize (length puzzles). intros n.
  symmetry. apply imap_const.
Qed.

(** What one turn of the loop does to the state. *)
Lemma body_spec st :
  ∃ shuffled,
    shuffled ≡ₚ Picker.fresh_items used (Picker.seen_ids st)
                  (fetch (Picker.attempts st))
    ∧ Picker.selected (body st)
      = Picker.selected st
        ++ take (count - length (Picker.selected st)) shuffled
    ∧ Picker.seen_ids (body st)
      = list_to_set
          (Picker.selected_id <$> take (count - length (Picker.selected st)) shuffled)
        ∪ Picker.seen_ids st
    ∧ Picker.attempts (body st) = S (Picker.attempts st).
Proof.
  unfold Picker.loop_body.
  destruct (Picker.fresh_items _ _ _) as [|it fresh] eqn:Hfresh.
  - exists []. simpl. rewrite take_nil, app_nil_r. simpl.
    by rewrite (left_id_L ∅ (∪)).
  - pose proof (shuffle_perm (Picker.gen st) (it :: fresh)) as Hperm.
    destruct (shuffle (Picker.gen st) (it :: fresh)) as [shuffled g'].
    exists shuffled. simpl in *. by rewrite map_fmap.
Qed.

Lemma attempts_body st : Picker.attempts (body st) = S (Picker.attempts st).
Proof. by destruct (body_spec st) as (? & _ & _ & _ & ?). Qed.

Lemma loop_preserves (P : Picker.loop_state → Prop) :
  (∀ st, P st → length (Picker.selected st) < count →
         Picker.attempts st < budget → P (body st)) →
  ∀ fuel st, P st → P (Picker.loop shuffle fetch fuel count used st).
Proof.
  intros Hstep. induction fuel as [|fuel IH]; intros st HP; simpl; [done|].
  destruct (length (Picker.selected st) <? count) eqn:Hlen; simpl; [|done].
  destruct (Picker.attempts st <? budget) eqn:Hatt; simpl; [|done].
  apply Nat.ltb_lt in Hlen, Hatt. apply IH. by apply Hstep.
Qed.

(** The fuel is enough: the loop stops because its condition fails. *)
Lemma loop_exit fuel st :
  budget ≤ Picker.attempts st + fuel →
  ¬ (length (Picker.selected (Picker.loop shuffle fetch fuel count used st))
       < count
     ∧ Picker.attempts (Picker.loop shuffle fetch fuel count used st)
       < budget).
Proof.
  revert st. induction fuel as [|fuel IH]; intros st Hfuel; simpl; [lia|].
  destruct (length (Picker.selected st) <? count) eqn:Hlen; simpl.
  - destruct (Picker.attempts st <? budget) eqn:Hatt; simpl.
    + apply IH. rewrite attempts_body. lia.
    + apply Nat.ltb_ge in Hatt. lia.
  - apply Nat.ltb_ge in Hlen. lia.
Qed.

(** The invariant of the loop: the budget, the size of the selection,
    where the selected items come from, and what [seen_ids] holds. *)
Definition loop_inv (st : @Picker.loop_state grng) : Prop :=
  Picker.attempts st ≤ budget
  ∧ length (Picker.selected st) ≤ count
  ∧ (∀ it, it ∈ Picker.selected st →
       ∃ n, n < Picker.attempts st
            ∧ fetch n !! (it.1.2) = Some (it.1.1)
            ∧ it.2 = length (fetch n)
            ∧ Picker.selected_id it ∉ used)
  ∧ (∀ id, id ∈ Picker.seen_ids st ↔ id ∈ Picker.selected_id <$> Picker.selected st).

Lemma loop_inv_body st :
  loop_inv st → length (Picker.selected st) < count →
  Picker.attempts st < budget → loop_inv (body st).
Proof.
  intros (Hatt & Hlen & Hitems & Hseen) Hlt Hbudget.
  destruct (body_spec st) as (shuffled & Hperm & Hsel & Hseen' & Hatt').
  unfold loop_inv. rewrite Hsel, Hseen', Hatt'. split_and!.
  - lia.
  - rewrite length_app, length_take. lia.
  - intros it [Hit|Hit]%elem_of_app.
    + destruct (Hitems it Hit) as (n & ? & ?). exists n. split; [lia|done].
    + apply elem_of_take in Hit as (i & Hit & _).
      apply list_elem_of_lookup_2 in Hit. rewrite Hperm in Hit.
      apply elem_of_fresh_items in Hit as (? & ? & ? & ?).
      exists (Picker.attempts st). split; [lia|done].
  - intros id. rewrite fmap_app, elem_of_app, elem_of_union,
      elem_of_list_to_set, Hseen. tauto.
Qed.

Lemma loop_inv_init g :
  loop_inv {| Picker.selected := []; Picker.seen_ids := ∅;
              Picker.attempts := 0; Picker.gen := g |}.
Proof.
  split_and!; simpl; [lia | lia | by intros it ?%elem_of_nil |].
  intros id. split; [by intros ?%not_elem_of_empty | by intros ?%elem_of_nil].
Qed.

(** *** Batches without repeated identifiers *)

Hypothesis batches_distinct : ∀ n, NoDup (Picker.puzzle_id <$> fetch n).

Lemma ids_fresh_NoDup seen n shuffled :
  shuffled ≡ₚ Picker.fresh_items used seen (fetch n) →
  NoDup (Picker.selected_id <$> shuffled).
Proof.
  intros ->.
  apply (sublist_NoDup _ (Picker.puzzle_id <$> fetch n));
    [apply batches_distinct | apply ids_fresh_items_sublist].
Qed.

Definition nodup_inv (st : @Picker.loop_state grng) : Prop :=
  loop_inv st ∧ NoDup (Picker.selected_id <$> Picker.selected st).

Lemma nodup_inv_body st :
  nodup_inv st → length (Picker.selected st) < count →
  Picker.attempts st < budget → nodup_inv (body st).
Proof.
  intros [Hinv Hnodup] Hlt Hbudget.
  split; [by apply loop_inv_body|].
  destruct Hinv as (_ & _ & _ & Hseen).
  destruct (body_spec st) as (shuffled & Hperm & -> & _ & _).
  rewrite fmap_app. apply NoDup_app. split_and!; [done| |].
  - intros id Hold [it [-> Hit]]%list_elem_of_fmap.
    apply elem_of_take in Hit as (i & Hit & _).
    apply list_elem_of_lookup_2 in Hit. rewrite Hperm in Hit.
    apply elem_of_fresh_items in Hit as (_ & _ & _ & Hnew).
    apply Hnew. by apply Hseen.
  - apply (sublist_NoDup _ (Picker.selected_id <$> shuffled));
      [by eapply ids_fresh_NoDup | apply fmap_sublist, sublist_take].
Qed.

(** *** A site with fewer new identifiers than asked for *)

Variable F : list pystr.
Hypothesis F_nodup : NoDup F.
Hypothesis F_small : length F < count.
Hypothesis F_covers :
  ∀ n p, n < budget → p ∈ fetch n → Picker.puzzle_id p ∉ used →
         Picker.puzzle_id p ∈ F.

Lemma selected_within_F st id :
  loop_inv st → id ∈ Picker.selected_id <$> Picker.selected st → id ∈ F.
Proof.
  intros (Hatt & _ & Hitems & _) [it [-> Hit]]%list_elem_of_fmap.
  destruct (Hitems it Hit) as (n & Hn & Hp & _ & Hused).
  apply (F_covers n); [lia | by eapply list_elem_of_lookup_2 | done].
Qed.

Definition cover_inv (st : @Picker.loop_state grng) : Prop :=
  nodup_inv st
  ∧ ∀ n p, n < Picker.attempts st → p ∈ fetch n →
           Picker.puzzle_id p ∉ used → Picker.puzzle_id p ∈ Picker.seen_ids st.

Lemma cover_inv_body st :
  cover_inv st → length (Picker.selected st) < count →
  Picker.attempts st < budget → cover_inv (body st).
Proof.
  intros [Hnd Hcover] Hlt Hbudget.
  split; [by apply nodup_inv_body|].
  destruct Hnd as [Hinv Hnodup]. pose proof Hinv as (_ & _ & _ & Hseen).
  destruct (body_spec st) as (shuffled & Hperm & _ & -> & ->).
  assert (length (Picker.selected st) + length shuffled ≤ length F) as Hroom.
  { rewrite <-(length_fmap Picker.selected_id (Picker.selected st)),
      <-(length_fmap Picker.selected_id shuffled), <-length_app.
    apply submseteq_length, NoDup_submseteq.
    - apply NoDup_app. split_and!; [done| |by eapply ids_fresh_NoDup].
      intros id Hold [it [-> Hit]]%list_elem_of_fmap. rewrite Hperm in Hit.
      apply elem_of_fresh_items in Hit as (_ & _ & _ & Hnew).
      apply Hnew. by apply Hseen.
    - intros id [Hid|[it [-> Hit]]%list_elem_of_fmap]%elem_of_app.
      + by eapply selected_within_F.
      + rewrite Hperm in Hit.
        apply elem_of_fresh_items in Hit as (Hp & _ & Hused & _).
        apply (F_covers (Picker.attempts st));
          [done | by eapply list_elem_of_lookup_2 | done]. }
  rewrite take_ge by lia.
  intros n p Hn Hp Hused. apply elem_of_union.
  destruct (decide (Picker.puzzle_id p ∈ Picker.seen_ids st)) as [|Hnew];
    [by right|].
  destruct (decide (n = Picker.attempts st)) as [->|Hne].
  - left. apply elem_of_list_to_set, list_elem_of_fmap.
    apply list_elem_of_lookup in Hp as [i Hi].
    exists (p, i, length (fetch (Picker.attempts st))). split; [done|].
    rewrite Hperm. by apply elem_of_fresh_items.
  - right. apply (Hcover n p); [lia | done..].
Qed.

Hypothesis F_appears :
  ∀ id, id ∈ F →
    ∃ n p, n < budget ∧ p ∈ fetch n ∧ Picker.puzzle_id p = id ∧ id ∉ used.

(** Such a site makes the batch selection fail, reporting as many
    puzzles as the site has new identifiers. *)
Lemma pick_many_insufficient g :
  Picker.pick_many shuffle fetch count used g
  = Err (InsufficientUniquePuzzles (length F) budget count).
Proof.
  unfold Picker.pick_many.
  set (st := Picker.run_loop shuffle fetch count used g).
  assert (cover_inv st) as [[Hinv Hnodup] Hcover].
  { apply (loop_preserves cover_inv); [apply cover_inv_body|].
    split; [split; [apply loop_inv_init | constructor]|].
    simpl. intros n p Hn. lia. }
  pose proof (loop_exit budget
                {| Picker.selected := []; Picker.seen_ids := ∅;
                   Picker.attempts := 0; Picker.gen := g |}
                ltac:(simpl; lia)) as Hexit.
  fold (Picker.run_loop shuffle fetch count used g) in Hexit. fold st in Hexit.
  assert (length (Picker.selected st) ≤ length F) as Hle.
  { rewrite <-(length_fmap Picker.selected_id).
    apply submseteq_length, NoDup_submseteq; [done|].
    intros id. by apply selected_within_F. }
  pose proof Hinv as (Hatt & _ & _ & Hseen).
  assert (Picker.attempts st = budget) as Hfull by lia.
  assert (length F ≤ length (Picker.selected st)) as Hge.
  { rewrite <-(length_fmap Picker.selected_id).
    apply submseteq_length, NoDup_submseteq; [done|].
    intros id (n & p & Hn & Hp & <- & Hused)%F_appears.
    apply Hseen, (Hcover n p); [lia | done..]. }
  rewrite (proj2 (Nat.ltb_lt _ _)) by lia.
  rewrite Hfull. do 2 f_equal. lia.
Qed.

End batch_loop.

(** For every site and every [shuffle] that permutes: the loop makes at
    most [max(5, count * 4)] requests, stops only with [count] items or
    the budget spent, selects only unused puzzles of the batches it
    fetched, and fails, reporting how many it selected, exactly when they
    are fewer than [count]; when no batch repeats an identifier, no
    identifier is selected twice. *)
Theorem pick_many_within_budget {grng : Type}
    (shuffle : grng → list Picker.Selected → list Picker.Selected * grng)
    (fetch : nat → list Picker.Puzzle) (count : nat) (used : gset pystr)
    (g : grng) :
  (∀ g l, (shuffle g l).1 ≡ₚ l) →
  let st := Picker.run_loop shuffle fetch count used g in
  Picker.attempts st ≤ Nat.max 5 (count * 4)
  ∧ length (Picker.selected st) ≤ count
  ∧ ¬ (length (Picker.selected st) < count
       ∧ Picker.attempts st < Nat.max 5 (count * 4))
  ∧ (∀ it, it ∈ Picker.selected st →
       ∃ n, n < Picker.attempts st
            ∧ fetch n !! (it.1.2) = Some (it.1.1)
            ∧ it.2 = length (fetch n)
            ∧ Picker.selected_id it ∉ used)
  ∧ Picker.pick_many shuffle fetch count used g
    = (if length (Picker.selected st) <? count
       then Err (InsufficientUniquePuzzles (length (Picker.selected st))
                   (Picker.attempts st) count)
       else Ok (Picker.selected st))
  ∧ ((∀ n, NoDup (Picker.puzzle_id <$> fetch n)) →
     NoDup (Picker.selected_id <$> Picker.selected st)).
Proof.
  intros Hperm. cbv zeta. unfold Picker.pick_many.
  set (st := Picker.run_loop shuffle fetch count used g).
  assert (loop_inv fetch count used st) as Hinv.
  { unfold st, Picker.run_loop.
    apply (loop_preserves shuffle fetch count used
             (loop_inv fetch count used));
      [by apply loop_inv_body | apply loop_inv_init]. }
  pose proof Hinv as (Hatt & Hlen & Hitems & _).
  split_and!; [done | done | | done | done |].
  - unfold st, Picker.run_loop.
    apply (loop_exit shuffle fetch count used Hperm). simpl.
    unfold Picker.max_attempts_of. lia.
  - intros Hdistinct.
    assert (nodup_inv fetch count used st) as [_ Hnodup]; [|done].
    unfold st, Picker.run_loop.
    apply (loop_preserves shuffle fetch count used
             (nodup_inv fetch count used));
      [by apply nodup_inv_body|].
    split; [apply loop_inv_init | constructor].
Qed.

(** When no batch repeats an identifier and the site shows, over the
    budget, fewer unused identifiers than asked for, the selection fails
    after [max(5, count * 4)] requests and reports as many puzzles as the
    site has unused identifiers. *)
Theorem pick_many_reports_obtained {grng : Type}
    (shuffle : grng → list Picker.Selected → list Picker.Selected * grng)
    (fetch : nat → list Picker.Puzzle) (count : nat) (used : gset pystr)
    (F : list pystr) (g : grng) :
  (∀ g l, (shuffle g l).1 ≡ₚ l) →
  (∀ n, NoDup (Picker.puzzle_id <$> fetch n)) →
  NoDup F → length F < count →
  (∀ n p, n < Nat.max 5 (count * 4) → p ∈ fetch n →
          Picker.puzzle_id p ∉ used → Picker.puzzle_id p ∈ F) →
  (∀ id, id ∈ F →
     ∃ n p, n < Nat.max 5 (count * 4) ∧ p ∈ fetch n
            ∧ Picker.puzzle_id p = id ∧ id ∉ used) →
  Picker.pick_many shuffle fetch count used g
  = Err (InsufficientUniquePuzzles (length F) (Nat.max 5 (count * 4)) count).
Proof. intros. by apply pick_many_insufficient. Qed.

(** Asked for three puzzles, a site that has two new ones makes the
    selection fail after twelve requests, with two obtained. *)
Lemma pick_many_two_of_three :
  Picker.pick_many RepeatingSite.keep_order RepeatingSite.fetch_two 3
    {[ lit "cccccccc-0003" ]} tt
  = Err (InsufficientUniquePuzzles 2 12 3).
Proof.
  apply (pick_many_reports_obtained RepeatingSite.keep_order
           RepeatingSite.fetch_two 3 {[ lit "cccccccc-0003" ]}
           [lit "aaaaaaaa-0001"; lit "bbbbbbbb-0002"] tt).
  - intros g l. reflexivity.
  - intros n. refine (bool_decide_unpack _ _). vm_compute. exact I.
  - refine (bool_decide_unpack _ _). vm_compute. exact I.
  - simpl. lia.
  - intros n p _ Hp Hused. unfold RepeatingSite.fetch_two in Hp.
    apply elem_of_cons in Hp as [->|Hp]; [by left|].
    apply elem_of_cons in Hp as [->|Hp].
    { destruct Hused. by apply elem_of_singleton. }
    apply elem_of_cons in Hp as [->|Hp]; [right; by left|].
    by apply elem_of_nil in Hp.
  - intros id Hid. exists 0.
    apply elem_of_cons in Hid as [->|Hid].
    { exists (Examples.puzzle "aaaaaaaa-0001").
      split_and!; [simpl; lia | by left | done |].
      by intros [=]%elem_of_singleton. }
    apply elem_of_cons in Hid as [->|Hid]; [|by apply elem_of_nil in Hid].
    exists (Examples.puzzle "bbbbbbbb-0002").
    split_and!; [simpl; lia | right; right; by left | done |].
    by intros [=]%elem_of_singleton.
Defined.

(** The budget of a run for three puzzles is twelve requests. *)
Lemma pick_many_within_budget_example :
  Picker.attempts
    (Picker.run_loop RepeatingSite.keep_order RepeatingSite.fetch_two 3
       {[ lit "cccccccc-0003" ]} tt) ≤ Nat.max 5 (3 * 4).
Proof.
  refine (proj1 (pick_many_within_budget RepeatingSite.keep_order
                   RepeatingSite.fetch_two 3 {[ lit "cccccccc-0003" ]} tt _)).
  intros g l. reflexivity.
Defined.

(** C6 fails on the code when a batch repeats an identifier: the filter
    that builds [fresh] reads [seen_ids] as it was before the batch, so
    both copies pass, and with three puzzles asked for the run ends in
    success with two different identifiers, where the claim has it fail
    with two obtained. *)
Theorem pick_many_repeated_id_in_batch :
  Picker.pick_many RepeatingSite.keep_order RepeatingSite.fetch 3 ∅ tt
  = Ok [ (Examples.puzzle "aaaaaaaa-0001", 0, 3);
         (Examples.puzzle "aaaaaaaa-0001", 1, 3);
         (Examples.puzzle "bbbbbbbb-0002", 2, 3) ].
Proof. vm_compute. reflexivity. Qed.

(** ** The listing and the latest file *)






(** ** Single pick by index and by identifier fragment *)








(** ** The used identifiers: what stops the scan, and what it is for *)





(** ** The box and the cell of a reveal *)












(** ** The text of a cell *)










